(** * react-env-secrets: a shallow embedding of [src/index.ts]

    The library exposes the ambient environment map [process.env] to React
    components through the hook [useEnv], the single-key hook [useEnvVar],
    the cache reset [clearEnvCache] and the helper [listEnvVars].

    Layout of this development:
    - [Js]      the JavaScript values and built-ins the source relies on
                (plain objects with their key order and their prototype,
                [startsWith], [slice], [join], exceptions);
    - [Env]     the resolver [getAllEnvVars] and the fallback / required
                steps of the resolution pass;
    - [Hooks]   the module-level variables, the hook cells of one component
                and the hooks themselves, in a state-and-exception monad;
    - [React]   several components sharing the module-level variables,
                driven by render, effect and clear events in any order;
    - the theorems, one section per property of the specification. *)

From Stdlib Require Import String Ascii List Bool Arith NArith Lia.
Import ListNotations.
Open Scope string_scope.

(* ===================================================================== *)
(** ** JavaScript values and built-ins *)
(* ===================================================================== *)

Module Js.

(** [string | undefined]: [None] is [undefined]. *)
Definition value := option string.

(** The own properties of a plain object whose values are strings or
    [undefined], in the order in which [Object.keys] lists them: array
    indices first, in ascending order, then the other keys in the order
    of their creation.  The prototype of such an object is
    [Object.prototype]. *)
Definition object := list (string * value).

(** The value of the own property [k]; [undefined] when there is none,
    as when it holds [undefined]. *)
Fixpoint obj_get (o : object) (k : string) : value :=
  match o with
  | [] => None
  | (k', v) :: o' => if String.eqb k' k then v else obj_get o' k
  end.

(** [Object.hasOwn(o, k)]. *)
Fixpoint obj_has (o : object) (k : string) : bool :=
  match o with
  | [] => false
  | (k', _) :: o' => String.eqb k' k || obj_has o' k
  end.

Definition digit (c : ascii) : option N :=
  let n := N_of_ascii c in
  if ((48 <=? n) && (n <=? 57))%N then Some (n - 48)%N else None.

Fixpoint digits (s : string) (acc : N) : option N :=
  match s with
  | EmptyString => Some acc
  | String c s' =>
      match digit c with
      | Some d => digits s' (acc * 10 + d)%N
      | None => None
      end
  end.

(** The array index that a key denotes: a decimal numeral without sign
    or leading zero, below [2^32 - 1]. *)
Definition array_index (k : string) : option N :=
  match k with
  | EmptyString => None
  | String c rest =>
      if Ascii.eqb c "0" && negb (String.eqb rest "") then None
      else
        match digits k 0 with
        | Some n => if (n <? 4294967295)%N then Some n else None
        | None => None
        end
  end.

(** A new key with index [i] (or none) is listed before a key with
    index [j] (or none). *)
Definition listed_before (i j : option N) : bool :=
  match i, j with
  | Some a, Some b => (a <? b)%N
  | Some _, None => true
  | None, _ => false
  end.

Fixpoint obj_replace (o : object) (k : string) (v : value) : object :=
  match o with
  | [] => []
  | (k', v') :: o' =>
      if String.eqb k' k then (k', v) :: o' else (k', v') :: obj_replace o' k v
  end.

Fixpoint obj_insert (o : object) (k : string) (v : value) : object :=
  match o with
  | [] => [(k, v)]
  | (k', v') :: o' =>
      if listed_before (array_index k) (array_index k')
      then (k, v) :: (k', v') :: o'
      else (k', v') :: obj_insert o' k v
  end.

(** Giving the own property [k] the value [v]: an existing property keeps
    its place, a new one takes the place [Object.keys] will list it at. *)
Definition obj_set (o : object) (k : string) (v : value) : object :=
  if obj_has o k then obj_replace o k v else obj_insert o k v.

(** The names that every plain object inherits from [Object.prototype]. *)
Definition object_prototype_names : list string :=
  ["constructor"; "__defineGetter__"; "__defineSetter__"; "hasOwnProperty";
   "__lookupGetter__"; "__lookupSetter__"; "isPrototypeOf";
   "propertyIsEnumerable"; "toString"; "valueOf"; "__proto__";
   "toLocaleString"].

Definition inherited (k : string) : bool :=
  existsb (String.eqb k) object_prototype_names.

(** What the expression [o[k]] evaluates to: a string, [undefined], or
    the member of [Object.prototype] of that name (a function, or for
    [__proto__] the prototype itself), which is neither. *)
Inductive jsval :=
| JUndefined
| JString (s : string)
| JInherited (name : string).

Definition of_value (v : value) : jsval :=
  match v with
  | Some s => JString s
  | None => JUndefined
  end.

(** [o[k]]: the own property when there is one, else what the prototype
    has under that name. *)
Definition obj_read (o : object) (k : string) : jsval :=
  if obj_has o k then of_value (obj_get o k)
  else if inherited k then JInherited k
  else JUndefined.

(** [o[k] = v] for a string or [undefined] [v].  The name [__proto__] is
    an accessor of [Object.prototype] whose setter ignores a value that is
    not an object: unless the object has an own property of that name, the
    assignment does nothing. *)
Definition obj_assign (o : object) (k : string) (v : value) : object :=
  if String.eqb k "__proto__" && negb (obj_has o k) then o
  else obj_set o k v.

(** [delete o[k]]. *)
Definition obj_delete (o : object) (k : string) : object :=
  filter (fun kv => negb (String.eqb (fst kv) k)) o.

(** [Object.keys(o)]. *)
Definition obj_keys (o : object) : list string := map fst o.

(** [k.startsWith(p)]. *)
Definition startsWith (k p : string) : bool := String.prefix p k.

(** [k.slice(n)] for [0 <= n]. *)
Fixpoint slice (k : string) (n : nat) {struct n} : string :=
  match n, k with
  | 0, _ => k
  | S n', String _ k' => slice k' n'
  | S _, EmptyString => EmptyString
  end.

(** [xs.join(sep)] on an array of strings. *)
Definition join (sep : string) (xs : list string) : string :=
  String.concat sep xs.

(** A string is truthy when it is not empty. *)
Definition truthy (s : string) : bool := negb (String.eqb s "").

(** The outcome of running a piece of code: a value, or a thrown
    exception.  An exception is kept as the text that a template literal
    prints for it. *)
Inductive outcome (A : Type) : Type :=
| Ok (a : A)
| Throw (e : string).
Arguments Ok {A} a.
Arguments Throw {A} e.

End Js.
Import Js.

(* ===================================================================== *)
(** ** The resolver and the steps of the resolution pass *)
(* ===================================================================== *)

Module Env.

Definition EnvVars := object.

(** What the hosting process provides.
    - [has_window]: [typeof window !== 'undefined'];
    - [process_env]: the ambient map; [None] when evaluating
      [process.env] throws because no global [process] exists. *)
Record World := {
  has_window : bool;
  process_env : option EnvVars
}.

Definition read_process_env (w : World) : outcome EnvVars :=
  match process_env w with
  | Some env => Ok env
  | None => Throw "ReferenceError: process is not defined"
  end.

(** [process.env.NODE_ENV], which throws like any other reading of
    [process.env] when there is no [process]. *)
Definition read_NODE_ENV (w : World) : outcome value :=
  match read_process_env w with
  | Ok env => Ok (obj_get env "NODE_ENV")
  | Throw e => Throw e
  end.

(** The build configuration flag where it can be read. *)
Definition NODE_ENV (w : World) : value :=
  match process_env w with
  | Some env => obj_get env "NODE_ENV"
  | None => None
  end.

Definition default_prefixes : list string :=
  ["REACT_APP_"; "NEXT_PUBLIC_"; "VITE_"; "PUBLIC_"].

(** [customPrefix ? [customPrefix] : [...]] *)
Definition active_prefixes (customPrefix : value) : list string :=
  match customPrefix with
  | Some p => if truthy p then [p] else default_prefixes
  | None => default_prefixes
  end.

(** [prefixes.some(prefix => key.startsWith(prefix))] *)
Definition hasValidPrefix (prefixes : list string) (key : string) : bool :=
  existsb (fun prefix => startsWith key prefix) prefixes.

(** [prefixes.reduce((k, prefix) =>
       k.startsWith(prefix) ? k.slice(prefix.length) : k, key)] *)
Definition cleanKey (prefixes : list string) (key : string) : string :=
  fold_left
    (fun k prefix =>
       if startsWith k prefix then slice k (String.length prefix) else k)
    prefixes key.

(** The body of the [forEach] over [Object.keys(process.env)].  The key
    is an own key of [process.env], so [process.env[key]] is the value of
    that own property. *)
Definition scan_key (env : EnvVars) (prefixes : list string)
           (envVars : EnvVars) (key : string) : EnvVars :=
  match obj_get env key with
  | Some value =>
      if hasValidPrefix prefixes key then
        obj_assign
          (obj_assign envVars (cleanKey prefixes key) (Some value))
          key (Some value)
      else envVars
  | None => envVars
  end.

(** The client-side branch of [getAllEnvVars] on an ambient map. *)
Definition scan (env : EnvVars) (prefixes : list string) : EnvVars :=
  fold_left (scan_key env prefixes) (obj_keys env) [].

Definition getAllEnvVars (w : World) (customPrefix : value)
  : outcome EnvVars :=
  if negb (has_window w) then read_process_env w
  else
    let prefixes := active_prefixes customPrefix in
    match read_process_env w with
    | Ok env => Ok (scan env prefixes)
    | Throw e => Throw e
    end.

(** [fallbacks[key]] on a [Record<string, string>], for an own key. *)
Fixpoint fallback_get (fallbacks : list (string * string)) (key : string)
  : value :=
  match fallbacks with
  | [] => None
  | (k, v) :: rest =>
      if String.eqb k key then Some v else fallback_get rest key
  end.

(** The body of the [forEach] over [Object.keys(fallbacks)]. *)
Definition fallback_key (fallbacks : list (string * string))
           (varsWithFallbacks : EnvVars) (key : string) : EnvVars :=
  match obj_read varsWithFallbacks key with
  | JUndefined => obj_assign varsWithFallbacks key (fallback_get fallbacks key)
  | _ => varsWithFallbacks
  end.

(** [{ ...vars }] followed by the fallback loop. *)
Definition applyFallbacks (vars : EnvVars)
           (fallbacks : list (string * string)) : EnvVars :=
  fold_left (fallback_key fallbacks) (map fst fallbacks) vars.

(** [varsWithFallbacks[key] === undefined || varsWithFallbacks[key] === ''] *)
Definition is_missing (varsWithFallbacks : EnvVars) (key : string) : bool :=
  match obj_read varsWithFallbacks key with
  | JUndefined => true
  | JString s => String.eqb s ""
  | JInherited _ => false
  end.

Definition missingVars (varsWithFallbacks : EnvVars)
           (required : list string) : list string :=
  filter (is_missing varsWithFallbacks) required.

(** [prefix || 'REACT_APP_/NEXT_PUBLIC_/VITE_'] *)
Definition prefixHint (prefix : value) : string :=
  match prefix with
  | Some p => if truthy p then p else "REACT_APP_/NEXT_PUBLIC_/VITE_"
  | None => "REACT_APP_/NEXT_PUBLIC_/VITE_"
  end.

Definition missing_message (missing : list string) (prefix : value)
  : string :=
  ("Missing required environment variables: " ++ join ", " missing ++ ". ")
  ++ ("Make sure they are prefixed with " ++ prefixHint prefix
      ++ " in your .env file.").

Definition failure_message (err : string) : string :=
  "Failed to load environment variables: " ++ err.

End Env.
Import Env.

(* ===================================================================== *)
(** ** Module-level variables, hook cells and the hooks *)
(* ===================================================================== *)

Module Hooks.

(** [let envCache: EnvVars | null] and [let isLoading]. *)
Record Globals := {
  envCache : option EnvVars;
  isLoading : bool
}.

(** The two [useState] cells that [useEnv] owns in one component:
    [envVars] and [error] ([None] is [null]).  The hooks never write to
    a mapping once it is stored, so a cell holds its mapping by value:
    the content the object had when it was stored. *)
Record Cells := {
  envVars : EnvVars;
  error : value
}.

Inductive console_entry :=
| ConsoleError (label : string) (text : string)
| ConsoleLog (label : string) (keys : list string).

(** What a hook call of one component can read and change: the
    module-level variables, the cells of that component ([None] until
    its first render has initialised them) and the console. *)
Record St := {
  globals : Globals;
  cells : option Cells;
  console : list console_entry
}.

(** Code that reads and writes [St] and may throw. *)
Definition M (A : Type) : Type := St -> outcome A * St.

Definition ret {A} (a : A) : M A := fun s => (Ok a, s).

Definition bind {A B} (c : M A) (k : A -> M B) : M B :=
  fun s =>
    match c s with
    | (Ok a, s') => k a s'
    | (Throw e, s') => (Throw e, s')
    end.

Definition lift {A} (r : outcome A) : M A := fun s => (r, s).

(** [try { body } catch (err) { handler(err) } finally { finalizer }]:
    what the body changed before it threw stays changed. *)
Definition try_catch_finally (body : M unit) (handler : string -> M unit)
           (finalizer : M unit) : M unit :=
  fun s =>
    let '(r, s1) :=
      match body s with
      | (Ok a, s') => (Ok a, s')
      | (Throw e, s') => handler e s'
      end in
    match finalizer s1 with
    | (Ok _, s2) => (r, s2)
    | (Throw e, s2) => (Throw e, s2)
    end.

Declare Scope hook_scope.
Delimit Scope hook_scope with hook.
Notation "x <- c ;; k" := (bind c (fun x => k))
  (at level 61, c at next level, right associativity) : hook_scope.
Notation "c ;; k" := (bind c (fun _ => k))
  (at level 61, right associativity) : hook_scope.
Open Scope hook_scope.

Definition get_envCache : M (option EnvVars) :=
  fun s => (Ok (envCache (globals s)), s).

Definition set_envCache (c : option EnvVars) : M unit :=
  fun s =>
    (Ok tt,
     {| globals := {| envCache := c; isLoading := isLoading (globals s) |};
        cells := cells s; console := console s |}).

Definition get_isLoading : M bool :=
  fun s => (Ok (isLoading (globals s)), s).

Definition set_isLoading (b : bool) : M unit :=
  fun s =>
    (Ok tt,
     {| globals := {| envCache := envCache (globals s); isLoading := b |};
        cells := cells s; console := console s |}).

(** [useState<EnvVars>(init)] followed by [useState<string | null>(null)]:
    the initialiser runs at the first render of the component only; later
    renders read the cells. *)
Definition useState_envVars (init : M EnvVars) : M EnvVars :=
  fun s =>
    match cells s with
    | Some c => (Ok (envVars c), s)
    | None =>
        match init s with
        | (Ok v, s') =>
            (Ok v,
             {| globals := globals s';
                cells := Some {| envVars := v; error := None |};
                console := console s' |})
        | (Throw e, s') => (Throw e, s')
        end
    end.

Definition useState_error : M value :=
  fun s =>
    match cells s with
    | Some c => (Ok (error c), s)
    | None => (Ok None, s)
    end.

(** The setters of the two cells; a component that is not mounted has
    nothing to set. *)
Definition setEnvVars (v : EnvVars) : M unit :=
  fun s =>
    (Ok tt,
     {| globals := globals s;
        cells := match cells s with
                 | Some c => Some {| envVars := v; error := error c |}
                 | None => None
                 end;
        console := console s |}).

Definition setError (e : value) : M unit :=
  fun s =>
    (Ok tt,
     {| globals := globals s;
        cells := match cells s with
                 | Some c => Some {| envVars := envVars c; error := e |}
                 | None => None
                 end;
        console := console s |}).

Definition console_emit (entry : console_entry) : M unit :=
  fun s =>
    (Ok tt,
     {| globals := globals s; cells := cells s;
        console := (console s ++ [entry])%list |}).

(** [UseEnvOptions]; an omitted [required] or [fallbacks] is the empty
    list, as the destructuring defaults make it.  [fallbacks] lists the
    own properties of the fallback table in the order in which
    [Object.keys] gives them. *)
Record UseEnvOptions := {
  prefix : value;
  required : list string;
  fallbacks : list (string * string)
}.

Definition no_options : UseEnvOptions :=
  {| prefix := None; required := []; fallbacks := [] |}.

(** [mode === 'development'] *)
Definition is_development_mode (mode : value) : bool :=
  match mode with
  | Some m => String.eqb m "development"
  | None => false
  end.

(** The build is a development build, as far as it can be told. *)
Definition is_development (w : World) : bool :=
  is_development_mode (NODE_ENV w).

(** The render part of [useEnv]: everything but the body of the effect. *)
Definition useEnv (w : World) (options : UseEnvOptions) : M EnvVars :=
  envVars <- useState_envVars
               (cache <- get_envCache ;;
                match cache with
                | Some c => ret c
                | None => lift (getAllEnvVars w (prefix options))
                end) ;;
  error <- useState_error ;;
  match error with
  | Some e =>
      if truthy e then
        mode <- lift (read_NODE_ENV w) ;;
        if is_development_mode mode
        then console_emit (ConsoleError "useEnv Error:" e)
        else ret tt
      else ret tt
  | None => ret tt
  end ;;
  ret envVars.

(** The function passed to [useEffect]: the resolution pass. *)
Definition useEnv_effect (w : World) (options : UseEnvOptions) : M unit :=
  cache <- get_envCache ;;
  loading <- get_isLoading ;;
  match cache, loading with
  | None, false =>
      set_isLoading true ;;
      try_catch_finally
        (vars <- lift (getAllEnvVars w (prefix options)) ;;
         let varsWithFallbacks := applyFallbacks vars (fallbacks options) in
         let missing := missingVars varsWithFallbacks (required options) in
         (if (0 <? List.length missing)%nat
          then setError (Some (missing_message missing (prefix options)))
          else setError None) ;;
         set_envCache (Some varsWithFallbacks) ;;
         setEnvVars varsWithFallbacks)
        (fun err => setError (Some (failure_message err)))
        (set_isLoading false)
  | _, _ => ret tt
  end.



Definition useEnvVar_effect (w : World) : M unit :=
  useEnv_effect w no_options.

Definition clearEnvCache : M unit := set_envCache None.

Definition listEnvVars (w : World) : M (list string) :=
  mode <- lift (read_NODE_ENV w) ;;
  if is_development_mode mode then
    vars <- lift (getAllEnvVars w None) ;;
    console_emit
      (ConsoleLog "Available environment variables:" (obj_keys vars)) ;;
    ret (obj_keys vars)
  else ret [].

End Hooks.
Import Hooks.

(* ===================================================================== *)
(** ** Components sharing the module-level variables *)
(* ===================================================================== *)

Module React.

(** Components are numbered; each owns its cells, all share the
    module-level variables and the console. *)
Record Sys := {
  sys_globals : Globals;
  sys_cells : nat -> option Cells;
  sys_console : list console_entry
}.

Definition boot : Sys :=
  {| sys_globals := {| envCache := None; isLoading := false |};
     sys_cells := fun _ => None;
     sys_console := [] |}.

Definition focus (sys : Sys) (c : nat) : St :=
  {| globals := sys_globals sys; cells := sys_cells sys c;
     console := sys_console sys |}.

Definition unfocus (sys : Sys) (c : nat) (s : St) : Sys :=
  {| sys_globals := globals s;
     sys_cells := fun c' => if Nat.eqb c' c then cells s else sys_cells sys c';
     sys_console := console s |}.

(** Component [c] renders and calls [useEnv(o)]. *)
Definition render (w : World) (c : nat) (o : UseEnvOptions) (sys : Sys)
  : outcome EnvVars * Sys :=
  let '(r, s) := useEnv w o (focus sys c) in (r, unfocus sys c s).

(** React runs the effect of the mounted component [c]. *)
Definition effect (w : World) (c : nat) (o : UseEnvOptions) (sys : Sys)
  : outcome unit * Sys :=
  match sys_cells sys c with
  | Some _ =>
      let '(r, s) := useEnv_effect w o (focus sys c) in (r, unfocus sys c s)
  | None => (Ok tt, sys)
  end.

(** [clearEnvCache()] called from anywhere. *)
Definition clear (sys : Sys) : Sys :=
  unfocus sys 0 (snd (clearEnvCache (focus sys 0))).

(** A commit in which component [c] is the only one to call the hook:
    its render, then its effect with nothing in between.  The effect runs
    after the first render of the component, and after a later render when
    one of the dependencies [prefix, required, fallbacks] has changed; it
    does not run when the render has thrown.  The mapping returned is the
    one the render returned.  With several components in one commit React
    runs all the renders and then all the effects: such schedules are
    sequences of events, below. *)
Definition invoke (w : World) (c : nat) (o : UseEnvOptions)
           (deps_changed : bool) (sys : Sys) : outcome EnvVars * Sys :=
  let mounting := match sys_cells sys c with Some _ => false | None => true end in
  let '(r, sys1) := render w c o sys in
  match r with
  | Ok _ =>
      if mounting || deps_changed
      then (r, snd (effect w c o sys1))
      else (r, sys1)
  | Throw _ => (r, sys1)
  end.

(** What can happen to the system, one thing at a time, each in the
    world of its moment. *)
Inductive Event :=
| Render (w : World) (c : nat) (o : UseEnvOptions)
| Effect (w : World) (c : nat) (o : UseEnvOptions)
| ClearCache.

Definition step (sys : Sys) (ev : Event) : Sys :=
  match ev with
  | Render w c o => snd (render w c o sys)
  | Effect w c o => snd (effect w c o sys)
  | ClearCache => clear sys
  end.

(** A schedule: any sequence of events, in order. *)
Definition run (evs : list Event) (sys : Sys) : Sys :=
  fold_left step evs sys.


Definition is_render (ev : Event) : bool :=
  match ev with
  | Render _ _ _ => true
  | _ => false
  end.


(** A schedule made of renders only: the render phase of a commit. *)
Definition renders_only (evs : list Event) : bool :=
  forallb is_render evs.

(** The states a running application can be in. *)
Inductive reachable : Sys -> Prop :=
| reach_boot : reachable boot
| reach_render w c o sys :
    reachable sys -> reachable (snd (render w c o sys))
| reach_effect w c o sys :
    reachable sys -> reachable (snd (effect w c o sys))
| reach_clear sys :
    reachable sys -> reachable (clear sys).

End React.
Import React.

(* ===================================================================== *)
(** ** Vocabulary of the specification *)
(* ===================================================================== *)

Module Spec.

(** The ambient map [env] with [NODE_ENV] set to [mode] when one is
    given. *)
Definition with_mode (env : EnvVars) (mode : value) : EnvVars :=
  match mode with
  | Some m => obj_set env "NODE_ENV" (Some m)
  | None => env
  end.

(** A client-side world over a given ambient map. *)
Definition browser (env : EnvVars) (mode : value) : World :=
  {| has_window := true; process_env := Some (with_mode env mode) |}.

(** A server-side world over a given ambient map. *)
Definition server (env : EnvVars) (mode : value) : World :=
  {| has_window := false; process_env := Some (with_mode env mode) |}.

(** A client-side world in which no global [process] exists. *)
Definition browser_without_process : World :=
  {| has_window := true; process_env := None |}.

(** The text of the exception thrown by a reading of [process.env] in
    such a world. *)
Definition no_process : string := "ReferenceError: process is not defined".

(** The development check of a render cannot be evaluated: the component
    holds a non-empty diagnostic and there is no [process]. *)
Definition check_throws (w : World) (c : Cells) : bool :=
  match error c, process_env w with
  | Some e, None => truthy e
  | _, _ => false
  end.

(** The first prefix of the set, in its declared order, that the key
    starts with. *)
Definition first_match (prefixes : list string) (key : string)
  : option string :=
  find (fun prefix => startsWith key prefix) prefixes.

(** The cleaned key in the words of the specification: the key with the
    portion matching the first matching prefix removed, and nothing else
    removed. *)
Definition strip_first_match (prefixes : list string) (key : string)
  : string :=
  match first_match prefixes key with
  | Some p => slice key (String.length p)
  | None => key
  end.

(** Key [k] of the ambient map holds the string [v] and starts with one
    of the prefixes. *)
Definition contributes (env : EnvVars) (prefixes : list string)
           (k v : string) : Prop :=
  In k (obj_keys env) /\ obj_get env k = Some v
  /\ hasValidPrefix prefixes k = true.

(** The names under which the resolver stores key [k]: the key and the
    cleaned key, except the name [__proto__], an assignment to which
    stores nothing. *)
Definition names (prefixes : list string) (k n : string) : Prop :=
  (n = k \/ n = cleanKey prefixes k) /\ n <> "__proto__".

(** A hint names a prefix set when it lists its members, in order,
    separated by slashes. *)
Definition hint_names (hint : string) (prefixes : list string) : Prop :=
  hint = join "/" prefixes.


(** The resolver property as the specification words it: in the
    filtered context every ambient key holding a string and starting
    with an active prefix is found under its original and its cleaned
    name with its own value, and the output has no other keys; in the
    unfiltered context the output is the ambient map. *)
Definition resolver_exact_as_stated : Prop :=
  forall (env : EnvVars) (customPrefix : value),
    let P := active_prefixes customPrefix in
    (exists out,
        getAllEnvVars (browser env None) customPrefix = Ok out
        /\ (forall k v, contributes env P k v ->
                        obj_get out k = Some v
                        /\ obj_get out (cleanKey P k) = Some v)
        /\ (forall n, In n (obj_keys out) ->
                      exists k v, contributes env P k v /\ names P k n))
    /\ getAllEnvVars (server env None) customPrefix = Ok env.

(** The cleaned-key property as the specification words it. *)
Definition first_prefix_only_as_stated : Prop :=
  forall (customPrefix : value) (key : string),
    let P := active_prefixes customPrefix in
    hasValidPrefix P key = true ->
    cleanKey P key = strip_first_match P key.

(** The edge cases as the specification words them: a key holding
    [undefined] appears under neither of its names, a matching key
    holding the empty string keeps the empty string. *)
Definition undefined_and_empty_as_stated : Prop :=
  forall (env : EnvVars) (customPrefix : value),
    let P := active_prefixes customPrefix in
    exists out,
      getAllEnvVars (browser env None) customPrefix = Ok out
      /\ (forall k, In k (obj_keys env) -> obj_get env k = None ->
                    ~ In k (obj_keys out)
                    /\ ~ In (cleanKey P k) (obj_keys out))
      /\ (forall k, contributes env P k "" -> obj_get out k = Some "").


(** Cache-clear correctness as the specification words it: the
    invocation that follows a clear returns what a freshly started
    process would return in the same world. *)
Definition clear_then_fresh_as_stated : Prop :=
  forall w c o sys,
    reachable sys ->
    fst (render w c o (clear sys)) = fst (render w c o boot).

(** Failure containment as the specification words it: when the pass
    runs for a mounted component and the scan fails, the pass returns
    normally, leaves the module-level variables as they were (the cache
    unchanged, the in-progress flag lowered), records a diagnostic, and
    the next invocation by the component still returns the mapping it
    held. *)
Definition failure_contained_as_stated : Prop :=
  forall w c o sys h e,
    reachable sys ->
    sys_cells sys c = Some h ->
    envCache (sys_globals sys) = None ->
    getAllEnvVars w (prefix o) = Throw e ->
    let sys' := snd (effect w c o sys) in
    fst (effect w c o sys) = Ok tt
    /\ sys_globals sys' = sys_globals sys
    /\ (exists err,
           sys_cells sys' c
           = Some {| envVars := envVars h; error := Some err |})
    /\ fst (render w c o sys') = Ok (envVars h).

(** The cache taking precedence over the configuration, as claimed:
    whenever the cache is populated, every invocation returns the cached
    mapping. *)
Definition cache_wins_as_stated : Prop :=
  forall w c o sys m,
    reachable sys ->
    envCache (sys_globals sys) = Some m ->
    fst (render w c o sys) = Ok m.

End Spec.
Import Spec.

(* ===================================================================== *)
(** ** Objects and strings *)
(* ===================================================================== *)

Section ObjectFacts.

Lemma obj_has_in (o : object) (k : string) :
  obj_has o k = true <-> In k (obj_keys o).
Proof.
  unfold obj_keys. induction o as [|[k' v'] o IH]; simpl.
  - split; [discriminate|contradiction].
  - rewrite orb_true_iff, IH, String.eqb_eq. tauto.
Qed.

Lemma obj_get_not_has (o : object) (k : string) :
  obj_has o k = false -> obj_get o k = None.
Proof.
  induction o as [|[k' v'] o IH]; simpl; [reflexivity|].
  intros H. apply orb_false_iff in H. destruct H as [-> H]. auto.
Qed.

(** A property that [obj_get] finds is among the keys. *)
Lemma obj_get_some_in (o : object) (k v : string) :
  obj_get o k = Some v -> In k (obj_keys o).
Proof.
  intros H. apply obj_has_in.
  destruct (obj_has o k) eqn:E; [reflexivity|].
  rewrite (obj_get_not_has o k E) in H. discriminate.
Qed.

Lemma obj_keys_replace (o : object) (k : string) (v : value) :
  obj_keys (obj_replace o k v) = obj_keys o.
Proof.
  unfold obj_keys. induction o as [|[k' v'] o IH]; simpl; [reflexivity|].
  destruct (String.eqb k' k); simpl; [reflexivity|now rewrite IH].
Qed.

Lemma obj_get_replace (o : object) (k n : string) (v : value) :
  obj_has o k = true ->
  obj_get (obj_replace o k v) n = if String.eqb k n then v else obj_get o n.
Proof.
  induction o as [|[k' v'] o IH]; simpl; [discriminate|].
  destruct (String.eqb k' k) eqn:Ek; simpl.
  - intros _. apply String.eqb_eq in Ek; subst k'.
    destruct (String.eqb k n); reflexivity.
  - intros H. destruct (String.eqb k' n) eqn:En.
    + apply String.eqb_eq in En; subst k'.
      now rewrite String.eqb_sym, Ek.
    + now apply IH.
Qed.

Lemma obj_has_insert (o : object) (k n : string) (v : value) :
  obj_has (obj_insert o k v) n = String.eqb k n || obj_has o n.
Proof.
  induction o as [|[k' v'] o IH]; simpl.
  - reflexivity.
  - destruct (listed_before _ _); simpl; [reflexivity|].
    rewrite IH.
    destruct (String.eqb k' n), (String.eqb k n); reflexivity.
Qed.

Lemma obj_get_insert (o : object) (k n : string) (v : value) :
  obj_has o k = false ->
  obj_get (obj_insert o k v) n = if String.eqb k n then v else obj_get o n.
Proof.
  induction o as [|[k' v'] o IH]; simpl; [reflexivity|].
  intros H. apply orb_false_iff in H. destruct H as [Ek H].
  destruct (listed_before _ _); simpl; [reflexivity|].
  destruct (String.eqb k' n) eqn:En.
  - apply String.eqb_eq in En; subst k'.
    now rewrite String.eqb_sym, Ek.
  - now apply IH.
Qed.

Lemma obj_has_set (o : object) (k n : string) (v : value) :
  obj_has (obj_set o k v) n = String.eqb k n || obj_has o n.
Proof.
  unfold obj_set. destruct (obj_has o k) eqn:H.
  - assert (Hk : forall m, obj_has (obj_replace o k v) m = obj_has o m).
    { intros m. destruct (obj_has o m) eqn:E.
      - apply obj_has_in. rewrite obj_keys_replace. now apply obj_has_in.
      - destruct (obj_has (obj_replace o k v) m) eqn:E'; [|reflexivity].
        apply obj_has_in in E'. rewrite obj_keys_replace in E'.
        apply obj_has_in in E'. congruence. }
    rewrite Hk. destruct (String.eqb k n) eqn:E; [|reflexivity].
    apply String.eqb_eq in E; subst n. now rewrite H.
  - apply obj_has_insert.
Qed.

Lemma obj_get_set (o : object) (k n : string) (v : value) :
  obj_get (obj_set o k v) n = if String.eqb k n then v else obj_get o n.
Proof.
  unfold obj_set. destruct (obj_has o k) eqn:H.
  - now apply obj_get_replace.
  - now apply obj_get_insert.
Qed.

Lemma obj_keys_set (o : object) (k n : string) (v : value) :
  In n (obj_keys (obj_set o k v)) <-> n = k \/ In n (obj_keys o).
Proof.
  rewrite <- !obj_has_in, obj_has_set, orb_true_iff, String.eqb_eq.
  intuition.
Qed.

Lemma obj_read_set (o : object) (k n : string) (v : value) :
  obj_read (obj_set o k v) n
  = if String.eqb k n then of_value v else obj_read o n.
Proof.
  unfold obj_read. rewrite obj_has_set, obj_get_set.
  destruct (String.eqb k n); reflexivity.
Qed.

Lemma obj_set_NoDup (o : object) (k : string) (v : value) :
  NoDup (obj_keys o) -> NoDup (obj_keys (obj_set o k v)).
Proof.
  unfold obj_set. destruct (obj_has o k) eqn:H.
  - now rewrite obj_keys_replace.
  - revert H. unfold obj_keys.
    induction o as [|[k' v'] o IH]; simpl; intros H Hnd.
    + repeat constructor. intros [].
    + apply orb_false_iff in H. destruct H as [Ek H].
      inversion Hnd as [|x l Hnotin Hnd']; subst.
      destruct (listed_before _ _); simpl.
      * constructor; [|exact Hnd].
        intros [->|Hin]; [now rewrite String.eqb_refl in Ek|].
        apply (obj_has_in o k) in Hin. congruence.
      * constructor; [|now apply IH].
        intros Hin. apply (obj_has_in (obj_insert o k v) k') in Hin.
        rewrite obj_has_insert in Hin. apply orb_true_iff in Hin.
        destruct Hin as [Hin|Hin].
        -- apply String.eqb_eq in Hin; subst k'.
           now rewrite String.eqb_refl in Ek.
        -- apply obj_has_in in Hin. contradiction.
Qed.

(** An assignment that the prototype swallows. *)
Lemma obj_assign_cases (o : object) (k : string) (v : value) :
  (k = "__proto__" /\ obj_has o k = false /\ obj_assign o k v = o)
  \/ ((k <> "__proto__" \/ obj_has o k = true)
      /\ obj_assign o k v = obj_set o k v).
Proof.
  unfold obj_assign.
  destruct (String.eqb k "__proto__") eqn:E; simpl.
  - apply String.eqb_eq in E.
    destruct (obj_has o k) eqn:H; simpl; auto.
  - right. split; [|reflexivity]. left. intros ->. discriminate.
Qed.

(** An assignment never gives a plain object an own [__proto__]. *)
Lemma obj_assign_plain (o : object) (k : string) (v : value) :
  obj_has o "__proto__" = false ->
  obj_has (obj_assign o k v) "__proto__" = false.
Proof.
  intros Hp.
  destruct (obj_assign_cases o k v) as [(_ & _ & ->)|([Hne|Hh] & ->)].
  - exact Hp.
  - rewrite obj_has_set, Hp. destruct (String.eqb k _) eqn:E; [|reflexivity].
    apply String.eqb_eq in E. contradiction.
  - rewrite obj_has_set, Hp. destruct (String.eqb k _) eqn:E; [|reflexivity].
    apply String.eqb_eq in E; subst k. congruence.
Qed.

Lemma obj_get_assign (o : object) (k n : string) (v : value) :
  obj_has o "__proto__" = false ->
  obj_get (obj_assign o k v) n
  = if String.eqb k n && negb (String.eqb n "__proto__") then v
    else obj_get o n.
Proof.
  intros Hp.
  destruct (obj_assign_cases o k v) as [(-> & _ & ->)|([Hne|Hh] & ->)].
  - destruct (String.eqb "__proto__" n) eqn:E; [|reflexivity].
    apply String.eqb_eq in E; subst n. reflexivity.
  - rewrite obj_get_set.
    destruct (String.eqb k n) eqn:E; [|reflexivity].
    apply String.eqb_eq in E; subst n.
    destruct (String.eqb k "__proto__") eqn:E'; [|reflexivity].
    apply String.eqb_eq in E'. contradiction.
  - rewrite obj_get_set.
    destruct (String.eqb k n) eqn:E; [|reflexivity].
    apply String.eqb_eq in E; subst n.
    destruct (String.eqb k "__proto__") eqn:E'; [|reflexivity].
    apply String.eqb_eq in E'; subst k. congruence.
Qed.

Lemma obj_keys_assign (o : object) (k n : string) (v : value) :
  obj_has o "__proto__" = false ->
  In n (obj_keys (obj_assign o k v)) <->
  (n = k /\ n <> "__proto__") \/ In n (obj_keys o).
Proof.
  intros Hp.
  destruct (obj_assign_cases o k v) as [(-> & _ & ->)|([Hne|Hh] & ->)].
  - tauto.
  - rewrite obj_keys_set. split; [|tauto].
    intros [->|H]; auto.
  - rewrite obj_keys_set. split; [|tauto].
    intros [->|H]; [|auto]. right. now apply obj_has_in.
Qed.

Lemma obj_assign_NoDup (o : object) (k : string) (v : value) :
  NoDup (obj_keys o) -> NoDup (obj_keys (obj_assign o k v)).
Proof.
  intros H.
  destruct (obj_assign_cases o k v) as [(_ & _ & ->)|(_ & ->)];
    [exact H|now apply obj_set_NoDup].
Qed.

Lemma obj_get_delete (o : object) (k n : string) :
  obj_get (obj_delete o k) n = if String.eqb k n then None else obj_get o n.
Proof.
  induction o as [|[k' v'] o IH]; simpl.
  - now destruct (String.eqb k n).
  - destruct (String.eqb k' k) eqn:Ek; simpl.
    + apply String.eqb_eq in Ek; subst k'. rewrite IH.
      now destruct (String.eqb k n).
    + rewrite IH. destruct (String.eqb k' n) eqn:En; [|reflexivity].
      apply String.eqb_eq in En; subst k'.
      now rewrite String.eqb_sym, Ek.
Qed.

Lemma obj_keys_delete (o : object) (k : string) :
  obj_keys (obj_delete o k)
  = filter (fun n => negb (String.eqb n k)) (obj_keys o).
Proof.
  unfold obj_keys, obj_delete.
  induction o as [|[k' v'] o IH]; simpl; [reflexivity|].
  destruct (String.eqb k' k); simpl; now rewrite IH.
Qed.

Lemma startsWith_split (k p : string) :
  startsWith k p = true -> k = p ++ slice k (String.length p).
Proof.
  unfold startsWith. revert k.
  induction p as [|a p IH]; intros k H; simpl in *.
  - reflexivity.
  - destruct k as [|b k]; simpl in H; [discriminate|].
    destruct (Ascii.ascii_dec a b) as [->|]; [|discriminate].
    simpl. f_equal. auto.
Qed.

Lemma slice_length (k : string) (n : nat) :
  String.length (slice k n) = String.length k - n.
Proof.
  revert k. induction n as [|n IH]; intros k; simpl.
  - lia.
  - destruct k as [|a k]; simpl; auto.
Qed.

Lemma startsWith_length (k p : string) :
  startsWith k p = true -> String.length p <= String.length k.
Proof.
  unfold startsWith. revert k.
  induction p as [|a p IH]; intros k H; simpl.
  - lia.
  - destruct k as [|b k]; simpl in H; [discriminate|].
    destruct (Ascii.ascii_dec a b); [|discriminate].
    simpl. apply IH in H. lia.
Qed.

End ObjectFacts.

(* ===================================================================== *)
(** ** The client-side scan of the ambient map *)
(* ===================================================================== *)

Section Resolver.

Variable env : EnvVars.
Variable P : list string.

(** The object that the loop fills starts as [{}] and never gets an own
    [__proto__]. *)
Lemma scan_key_plain (acc : EnvVars) (k : string) :
  obj_has acc "__proto__" = false ->
  obj_has (scan_key env P acc k) "__proto__" = false.
Proof.
  intros Hp. unfold scan_key.
  destruct (obj_get env k); [|exact Hp].
  destruct (hasValidPrefix P k); [|exact Hp].
  now repeat apply obj_assign_plain.
Qed.

Lemma scan_fold_plain (ks : list string) :
  forall acc : EnvVars,
    obj_has acc "__proto__" = false ->
    obj_has (fold_left (scan_key env P) ks acc) "__proto__" = false.
Proof.
  induction ks as [|k0 ks IH]; intros acc Hp; simpl; [exact Hp|].
  apply IH. now apply scan_key_plain.
Qed.

Lemma names_spec (k n : string) :
  names P k n <->
  (String.eqb k n || String.eqb (cleanKey P k) n)
  && negb (String.eqb n "__proto__") = true.
Proof.
  unfold names.
  rewrite andb_true_iff, orb_true_iff, negb_true_iff, !String.eqb_eq.
  rewrite String.eqb_neq. intuition.
Qed.

(** What one round of the loop does to the lookup of a name. *)
Lemma scan_key_get (acc : EnvVars) (k n : string) :
  obj_has acc "__proto__" = false ->
  obj_get (scan_key env P acc k) n =
  match obj_get env k with
  | Some v =>
      if hasValidPrefix P k then
        if (String.eqb k n || String.eqb (cleanKey P k) n)
           && negb (String.eqb n "__proto__")
        then Some v
        else obj_get acc n
      else obj_get acc n
  | None => obj_get acc n
  end.
Proof.
  intros Hp. unfold scan_key.
  destruct (obj_get env k); [|reflexivity].
  destruct (hasValidPrefix P k); [|reflexivity].
  rewrite obj_get_assign by now apply obj_assign_plain.
  rewrite obj_get_assign by exact Hp.
  destruct (String.eqb k n), (String.eqb (cleanKey P k) n),
    (String.eqb n "__proto__"); reflexivity.
Qed.

Lemma scan_key_keys (acc : EnvVars) (k n : string) :
  obj_has acc "__proto__" = false ->
  In n (obj_keys (scan_key env P acc k)) <->
  In n (obj_keys acc)
  \/ exists v, obj_get env k = Some v /\ hasValidPrefix P k = true
               /\ names P k n.
Proof.
  intros Hp. unfold scan_key, names.
  destruct (obj_get env k) as [v|].
  - destruct (hasValidPrefix P k).
    + rewrite obj_keys_assign by now apply obj_assign_plain.
      rewrite obj_keys_assign by exact Hp. split.
      * intros [[-> H]|[[-> H]|H]]; eauto 8.
      * intros [H|(v' & _ & _ & [[->| ->] H])]; auto.
    + split; [auto|]. intros [H|(v' & _ & H & _)]; [auto|discriminate].
  - split; [auto|]. intros [H|(v' & H & _)]; [auto|discriminate].
Qed.

Lemma scan_fold_keys (ks : list string) :
  forall (acc : EnvVars) (n : string),
    obj_has acc "__proto__" = false ->
    (In n (obj_keys (fold_left (scan_key env P) ks acc)) <->
     In n (obj_keys acc)
     \/ exists k v, In k ks /\ obj_get env k = Some v
                    /\ hasValidPrefix P k = true /\ names P k n).
Proof.
  induction ks as [|k0 ks IH]; intros acc n Hp; simpl.
  - split; [auto|]. intros [H|(k & v & [] & _)]; exact H.
  - rewrite IH by now apply scan_key_plain.
    rewrite scan_key_keys by exact Hp. split.
    + intros [[H|(v & H1 & H2 & H3)]|(k & v & H1 & H2)].
      * now left.
      * right. exists k0, v. auto.
      * right. exists k, v. tauto.
    + intros [H|(k & v & [<-|H0] & H1 & H2 & H3)].
      * auto.
      * left. right. eauto.
      * right. exists k, v. auto.
Qed.

(** Every property the loop writes holds a string. *)
Lemma scan_fold_defined (ks : list string) :
  forall acc : EnvVars,
    obj_has acc "__proto__" = false ->
    (forall n, In n (obj_keys acc) -> obj_get acc n <> None) ->
    forall n, In n (obj_keys (fold_left (scan_key env P) ks acc)) ->
              obj_get (fold_left (scan_key env P) ks acc) n <> None.
Proof.
  induction ks as [|k0 ks IH]; intros acc Hp Hacc n; simpl; [auto|].
  apply IH; [now apply scan_key_plain|]. clear n. intros n Hn.
  rewrite scan_key_get by exact Hp.
  apply scan_key_keys in Hn; [|exact Hp].
  destruct (obj_get env k0) as [v|] eqn:Ev.
  - destruct (hasValidPrefix P k0) eqn:Hpx.
    + destruct ((String.eqb k0 n || String.eqb (cleanKey P k0) n)
                && negb (String.eqb n "__proto__")) eqn:E; [discriminate|].
      destruct Hn as [Hn|(v' & _ & _ & Hn)]; [auto|].
      apply names_spec in Hn. congruence.
    + destruct Hn as [Hn|(v' & _ & Hn & _)]; [auto|discriminate].
  - destruct Hn as [Hn|(v' & Hn & _)]; [auto|discriminate].
Qed.

(** A value found in the output is the value of an ambient key that is
    stored under that name. *)
Lemma scan_fold_origin (ks : list string) :
  forall (acc : EnvVars) (n v : string),
    obj_has acc "__proto__" = false ->
    obj_get (fold_left (scan_key env P) ks acc) n = Some v ->
    obj_get acc n = Some v
    \/ exists k, In k ks /\ obj_get env k = Some v
                 /\ hasValidPrefix P k = true /\ names P k n.
Proof.
  induction ks as [|k0 ks IH]; intros acc n v Hp H; simpl in *; [auto|].
  apply IH in H; [|now apply scan_key_plain].
  destruct H as [H|(k & H1 & H2)].
  - rewrite scan_key_get in H by exact Hp.
    destruct (obj_get env k0) as [v0|] eqn:Ev; [|auto].
    destruct (hasValidPrefix P k0) eqn:Hpx; [|auto].
    destruct ((String.eqb k0 n || String.eqb (cleanKey P k0) n)
              && negb (String.eqb n "__proto__")) eqn:E; [|auto].
    injection H as ->. right. exists k0.
    apply names_spec in E. auto.
  - right. exists k. tauto.
Qed.

(** A name keeps its value through the rest of the loop when every
    later key stored under it carries that value. *)
Lemma scan_fold_agree (ks : list string) :
  forall (acc : EnvVars) (n v : string),
    obj_has acc "__proto__" = false ->
    obj_get acc n = Some v ->
    (forall k' v', In k' ks -> obj_get env k' = Some v' ->
                   hasValidPrefix P k' = true -> names P k' n -> v' = v) ->
    obj_get (fold_left (scan_key env P) ks acc) n = Some v.
Proof.
  induction ks as [|k0 ks IH]; intros acc n v Hp Hacc Hall; simpl; [auto|].
  apply IH; [now apply scan_key_plain| |intros; eapply Hall; simpl; eauto].
  rewrite scan_key_get by exact Hp.
  destruct (obj_get env k0) as [v0|] eqn:Ev; [|auto].
  destruct (hasValidPrefix P k0) eqn:Hpx; [|auto].
  destruct ((String.eqb k0 n || String.eqb (cleanKey P k0) n)
            && negb (String.eqb n "__proto__")) eqn:E; [|auto].
  apply names_spec in E. f_equal. eapply Hall; simpl; eauto.
Qed.

Lemma scan_fold_hit (ks : list string) :
  forall (acc : EnvVars) (n k v : string),
    obj_has acc "__proto__" = false ->
    In k ks -> obj_get env k = Some v -> hasValidPrefix P k = true ->
    names P k n ->
    (forall k' v', In k' ks -> obj_get env k' = Some v' ->
                   hasValidPrefix P k' = true -> names P k' n -> v' = v) ->
    obj_get (fold_left (scan_key env P) ks acc) n = Some v.
Proof.
  induction ks as [|k0 ks IH]; intros acc n k v Hp Hin Hk Hpx Hn Hall;
    simpl in *; [contradiction|].
  destruct Hin as [->|Hin].
  - apply scan_fold_agree;
      [now apply scan_key_plain| |intros; eapply Hall; eauto].
    rewrite scan_key_get by exact Hp. rewrite Hk, Hpx.
    apply names_spec in Hn. now rewrite Hn.
  - eapply IH; eauto. now apply scan_key_plain.
Qed.

(** The same facts for the whole scan. *)
Lemma scan_plain : obj_has (scan env P) "__proto__" = false.
Proof. unfold scan. now apply scan_fold_plain. Qed.

Lemma scan_keys_iff (n : string) :
  In n (obj_keys (scan env P)) <->
  exists k v, contributes env P k v /\ names P k n.
Proof.
  unfold scan, contributes. rewrite scan_fold_keys by reflexivity.
  simpl. split.
  - intros [[]|(k & v & H)]. exists k, v. tauto.
  - intros (k & v & H). right. exists k, v. tauto.
Qed.

Lemma scan_defined (n : string) :
  In n (obj_keys (scan env P)) -> exists v, obj_get (scan env P) n = Some v.
Proof.
  intros H. unfold scan in *.
  apply scan_fold_defined in H; [|reflexivity|intros ? []].
  destruct (obj_get _ n) as [v|]; [eauto|congruence].
Qed.

Lemma scan_origin (n v : string) :
  obj_get (scan env P) n = Some v ->
  exists k, contributes env P k v /\ names P k n.
Proof.
  intros H. apply scan_fold_origin in H; [|reflexivity].
  destruct H as [H|(k & H)]; [discriminate|].
  exists k. unfold contributes. tauto.
Qed.

Lemma scan_unique (n k v : string) :
  contributes env P k v -> names P k n ->
  (forall k' v', contributes env P k' v' -> names P k' n -> v' = v) ->
  obj_get (scan env P) n = Some v.
Proof.
  intros (H1 & H2 & H3) Hn Hall.
  apply (scan_fold_hit _ _ n k v); auto.
  intros k' v' Hin Hg Hp Hn'. apply (Hall k' v'); [|exact Hn'].
  unfold contributes. auto.
Qed.

Lemma scan_NoDup : NoDup (obj_keys (scan env P)).
Proof.
  unfold scan.
  assert (H : forall ks acc,
             NoDup (obj_keys acc) ->
             NoDup (obj_keys (fold_left (scan_key env P) ks acc))).
  { induction ks as [|k0 ks IH]; intros acc Hacc; simpl; [exact Hacc|].
    apply IH. unfold scan_key.
    destruct (obj_get env k0); [|exact Hacc].
    destruct (hasValidPrefix P k0); [|exact Hacc].
    now repeat apply obj_assign_NoDup. }
  apply H. constructor.
Qed.

End Resolver.

Section ResolverDelete.

Variable P : list string.

(** The loop reads the ambient map through lookups only. *)
Lemma scan_fold_ext (env1 env2 : EnvVars) :
  (forall n, obj_get env1 n = obj_get env2 n) ->
  forall (ks : list string) (acc : EnvVars),
    fold_left (scan_key env1 P) ks acc = fold_left (scan_key env2 P) ks acc.
Proof.
  intros Hext ks. induction ks as [|k0 ks IH]; intros acc; simpl.
  - reflexivity.
  - unfold scan_key at 2 4. rewrite Hext. apply IH.
Qed.

(** A key that holds [undefined] is a round of the loop that does
    nothing. *)
Lemma scan_fold_skip (env : EnvVars) (k : string) :
  obj_get env k = None ->
  forall (ks : list string) (acc : EnvVars),
    fold_left (scan_key env P)
              (filter (fun n => negb (String.eqb n k)) ks) acc
    = fold_left (scan_key env P) ks acc.
Proof.
  intros Hk ks. induction ks as [|k0 ks IH]; intros acc; simpl.
  - reflexivity.
  - destruct (String.eqb k0 k) eqn:E; simpl.
    + apply String.eqb_eq in E; subst k0.
      unfold scan_key at 3. rewrite Hk. apply IH.
    + apply IH.
Qed.

(** Deleting a key that holds [undefined] from the ambient map does not
    change the outcome of the scan. *)
Lemma scan_delete_undefined (env : EnvVars) (k : string) :
  obj_get env k = None -> scan (obj_delete env k) P = scan env P.
Proof.
  intros Hk. unfold scan.
  rewrite (scan_fold_ext (obj_delete env k) env).
  - rewrite obj_keys_delete. now apply scan_fold_skip.
  - intros n. rewrite obj_get_delete.
    destruct (String.eqb k n) eqn:E; [|reflexivity].
    apply String.eqb_eq in E; subst n. now rewrite Hk.
Qed.

End ResolverDelete.

(* ===================================================================== *)
(** ** Cleaning a key *)
(* ===================================================================== *)

Section CleanKey.

(** Prefixes that do not match leave the key alone. *)
Lemma cleanKey_no_match (Q : list string) :
  forall s : string,
    (forall q, In q Q -> startsWith s q = false) -> cleanKey Q s = s.
Proof.
  unfold cleanKey.
  induction Q as [|q Q IH]; intros s H; simpl; [reflexivity|].
  rewrite (H q (or_introl eq_refl)). apply IH.
  intros q' Hq'. apply H. now right.
Qed.

(** The reduction removes the first matching prefix and then goes on
    with the prefixes declared after it. *)
Lemma cleanKey_after_first_match (Q : list string) :
  forall (k p : string),
    first_match Q k = Some p ->
    exists rest,
      incl rest Q /\ cleanKey Q k = cleanKey rest (strip_first_match Q k).
Proof.
  unfold first_match, strip_first_match, cleanKey.
  induction Q as [|q Q IH]; intros k p H; simpl in *; [discriminate|].
  destruct (startsWith k q) eqn:Hq.
  - exists Q. split; [apply incl_tl, incl_refl|reflexivity].
  - destruct (IH k p H) as (rest & Hincl & Heq).
    exists rest. split; [now apply incl_tl|exact Heq].
Qed.

Lemma hasValidPrefix_first_match (Q : list string) (k : string) :
  hasValidPrefix Q k = true -> exists p, first_match Q k = Some p.
Proof.
  unfold hasValidPrefix, first_match.
  induction Q as [|q Q IH]; simpl; [discriminate|].
  destruct (startsWith k q); simpl; eauto.
Qed.

(** The cleaned key is the key without its first matching prefix as
    soon as what remains starts with none of the prefixes. *)
Lemma cleanKey_unchained (Q : list string) (k : string) :
  hasValidPrefix Q k = true ->
  (forall q, In q Q -> startsWith (strip_first_match Q k) q = false) ->
  cleanKey Q k = strip_first_match Q k.
Proof.
  intros Hv Hno.
  destruct (hasValidPrefix_first_match Q k Hv) as (p & Hp).
  destruct (cleanKey_after_first_match Q k p Hp) as (rest & Hincl & ->).
  apply cleanKey_no_match. intros q Hq. apply Hno, Hincl, Hq.
Qed.

(** With a caller-supplied prefix there is one prefix, so one removal. *)
Lemma cleanKey_custom_prefix (p k : string) :
  truthy p = true -> startsWith k p = true ->
  cleanKey (active_prefixes (Some p)) k
  = strip_first_match (active_prefixes (Some p)) k
  /\ k = p ++ cleanKey (active_prefixes (Some p)) k.
Proof.
  intros Ht Hs. unfold active_prefixes, strip_first_match, first_match.
  rewrite Ht. unfold cleanKey. simpl. rewrite Hs.
  split; [reflexivity|]. now apply startsWith_split.
Qed.

Lemma first_match_sound (Q : list string) (k p : string) :
  first_match Q k = Some p -> In p Q /\ startsWith k p = true.
Proof. unfold first_match. apply find_some. Qed.

Lemma cleanKey_length (Q : list string) :
  forall s : string, String.length (cleanKey Q s) <= String.length s.
Proof.
  unfold cleanKey.
  induction Q as [|q Q IH]; intros s; simpl; [lia|].
  destruct (startsWith s q); [|apply IH].
  eapply Nat.le_trans; [apply IH|]. rewrite slice_length. lia.
Qed.

(** Every active prefix is a non-empty string. *)
Lemma active_prefixes_nonempty (customPrefix : value) (q : string) :
  In q (active_prefixes customPrefix) -> q <> "".
Proof.
  unfold active_prefixes.
  assert (Hd : In q default_prefixes -> q <> "")
    by (simpl; intros [<-|[<-|[<-|[<-|[]]]]]; discriminate).
  destruct customPrefix as [p|]; [|exact Hd].
  destruct (truthy p) eqn:Ht; [|exact Hd].
  intros [<-|[]] ->. discriminate.
Qed.

(** So the cleaned name of a matching key is strictly shorter than the
    key: the two names of a key are never the same name. *)
Lemma cleanKey_shorter (customPrefix : value) (k : string) :
  hasValidPrefix (active_prefixes customPrefix) k = true ->
  String.length (cleanKey (active_prefixes customPrefix) k)
  < String.length k.
Proof.
  intros Hv.
  destruct (hasValidPrefix_first_match _ k Hv) as (p & Hp).
  destruct (cleanKey_after_first_match _ k p Hp) as (rest & _ & ->).
  eapply Nat.le_lt_trans; [apply cleanKey_length|].
  unfold strip_first_match. rewrite Hp, slice_length.
  destruct (first_match_sound _ k p Hp) as [Hin Hs].
  apply active_prefixes_nonempty in Hin.
  apply startsWith_length in Hs.
  destruct p; [congruence|simpl in *; lia].
Qed.

End CleanKey.

(* ===================================================================== *)
(** ** Fallbacks and the required check *)
(* ===================================================================== *)

Section Fallbacks.

Variable fb : list (string * string).

Lemma obj_read_undefined (o : object) (k : string) :
  obj_read o k = JUndefined ->
  obj_get o k = None /\ forall v, obj_assign o k v = obj_set o k v.
Proof.
  unfold obj_read. intros H. split.
  - destruct (obj_has o k) eqn:Hh.
    + destruct (obj_get o k); [discriminate|reflexivity].
    + now apply obj_get_not_has.
  - intros v.
    destruct (obj_assign_cases o k v) as [(-> & Hh & _)|(_ & ->)];
      [|reflexivity].
    rewrite Hh in H. discriminate.
Qed.

(** One round of the fallback loop either leaves the object alone or
    defines the key, which read as [undefined]. *)
Lemma fallback_key_cases (acc : EnvVars) (k : string) :
  (obj_read acc k <> JUndefined /\ fallback_key fb acc k = acc)
  \/ (obj_read acc k = JUndefined
      /\ fallback_key fb acc k = obj_set acc k (fallback_get fb k)).
Proof.
  unfold fallback_key. destruct (obj_read acc k) eqn:E.
  - right. split; [reflexivity|]. now apply obj_read_undefined.
  - left. split; [discriminate|reflexivity].
  - left. split; [discriminate|reflexivity].
Qed.

Lemma fallback_fold_read (ks : list string) :
  forall (acc : EnvVars) (K : string),
    obj_read (fold_left (fallback_key fb) ks acc) K =
    match obj_read acc K with
    | JUndefined =>
        if existsb (String.eqb K) ks then of_value (fallback_get fb K)
        else JUndefined
    | r => r
    end.
Proof.
  induction ks as [|k0 ks IH]; intros acc K; simpl.
  - now destruct (obj_read acc K).
  - rewrite IH.
    destruct (fallback_key_cases acc k0) as [(Hne & ->)|(Hu & ->)].
    + destruct (obj_read acc K) eqn:EK; try reflexivity.
      destruct (String.eqb K k0) eqn:E; [|reflexivity].
      apply String.eqb_eq in E; subst. congruence.
    + rewrite obj_read_set, (String.eqb_sym K k0).
      destruct (String.eqb k0 K) eqn:E; simpl; [|reflexivity].
      apply String.eqb_eq in E; subst. rewrite Hu.
      destruct (fallback_get fb K); simpl; [reflexivity|].
      now destruct (existsb _ ks).
Qed.

Lemma fallback_get_in (k : string) :
  In k (map fst fb) -> exists v, fallback_get fb k = Some v.
Proof.
  induction fb as [|[k0 v0] rest IH]; simpl; [contradiction|].
  intros [->|Hin].
  - rewrite String.eqb_refl. eauto.
  - destruct (String.eqb k0 k); eauto.
Qed.

Lemma fallback_get_not_in (k : string) :
  existsb (String.eqb k) (map fst fb) = false -> fallback_get fb k = None.
Proof.
  induction fb as [|[k0 v0] rest IH]; simpl; [reflexivity|].
  intros E. apply orb_false_iff in E. destruct E as [E1 E2].
  rewrite String.eqb_sym, E1. auto.
Qed.

(** What [o[K]] is after the merge. *)
Lemma applyFallbacks_read (vars : EnvVars) (K : string) :
  obj_read (applyFallbacks vars fb) K =
  match obj_read vars K with
  | JUndefined => of_value (fallback_get fb K)
  | r => r
  end.
Proof.
  unfold applyFallbacks. rewrite fallback_fold_read.
  destruct (obj_read vars K); try reflexivity.
  destruct (existsb _ _) eqn:E; [reflexivity|].
  now rewrite fallback_get_not_in.
Qed.

(** The own property [K] after the merge: what it was, or the fallback
    where there was none. *)
Lemma fallback_fold_own (ks : list string) :
  forall (acc : EnvVars) (K : string),
    obj_get (fold_left (fallback_key fb) ks acc) K = obj_get acc K
    \/ (obj_get acc K = None
        /\ obj_get (fold_left (fallback_key fb) ks acc) K
           = fallback_get fb K).
Proof.
  induction ks as [|k0 ks IH]; intros acc K; simpl; [now left|].
  destruct (fallback_key_cases acc k0) as [(Hne & ->)|(Hu & ->)];
    [apply IH|].
  destruct (IH (obj_set acc k0 (fallback_get fb k0)) K) as [H|[H1 H2]];
    rewrite obj_get_set in *.
  - destruct (String.eqb k0 K) eqn:E; [|now left].
    apply String.eqb_eq in E; subst. right.
    split; [now apply obj_read_undefined|exact H].
  - destruct (String.eqb k0 K) eqn:E; [|now right].
    apply String.eqb_eq in E; subst. right.
    split; [now apply obj_read_undefined|exact H2].
Qed.

Lemma applyFallbacks_own (vars : EnvVars) (K : string) :
  obj_get (applyFallbacks vars fb) K = obj_get vars K
  \/ (obj_get vars K = None
      /\ obj_get (applyFallbacks vars fb) K = fallback_get fb K).
Proof. apply fallback_fold_own. Qed.

(** When no fallback key reads as [undefined], the merge leaves the
    object as it is. *)
Lemma fallback_fold_id (ks : list string) :
  forall acc : EnvVars,
    (forall k, In k ks -> obj_read acc k <> JUndefined) ->
    fold_left (fallback_key fb) ks acc = acc.
Proof.
  induction ks as [|k0 ks IH]; intros acc H; simpl; [reflexivity|].
  destruct (fallback_key_cases acc k0) as [(_ & ->)|(Hu & _)].
  - apply IH. intros k Hk. apply H. now right.
  - exfalso. apply (H k0); [now left|exact Hu].
Qed.

Lemma applyFallbacks_id (vars : EnvVars) :
  (forall k, In k (map fst fb) -> obj_read vars k <> JUndefined) ->
  applyFallbacks vars fb = vars.
Proof. apply fallback_fold_id. Qed.

Lemma fallback_fold_keys (ks : list string) :
  forall (acc : EnvVars) (n : string),
    In n (obj_keys (fold_left (fallback_key fb) ks acc)) <->
    In n (obj_keys acc) \/ (In n ks /\ obj_read acc n = JUndefined).
Proof.
  induction ks as [|k0 ks IH]; intros acc n; simpl.
  - tauto.
  - rewrite IH.
    destruct (fallback_key_cases acc k0) as [(Hne & ->)|(Hu & ->)].
    + split; [tauto|]. intros [H|[[->|H] Hn]]; [tauto|congruence|tauto].
    + rewrite obj_keys_set, obj_read_set.
      destruct (String.eqb k0 n) eqn:E.
      * apply String.eqb_eq in E; subst n. tauto.
      * assert (k0 <> n) by (intros ->; now rewrite String.eqb_refl in E).
        split.
        -- intros [[->|H']|H']; [congruence|tauto|tauto].
        -- intros [H'|[[->|H'] Hn]]; [tauto|congruence|tauto].
Qed.

End Fallbacks.

Section Required.

(** The list of missing keys is the required list cut down to the keys
    that read as [undefined] or as the empty string, in the order of the
    required list. *)
Lemma missingVars_exact (m : EnvVars) (R : list string) (k : string) :
  In k (missingVars m R) <->
  In k R /\ (obj_read m k = JUndefined \/ obj_read m k = JString "").
Proof.
  unfold missingVars, is_missing. rewrite filter_In.
  destruct (obj_read m k) as [|s|n].
  - tauto.
  - split; intros [H1 H2]; split; auto.
    + right. apply String.eqb_eq in H2. now subst.
    + destruct H2 as [H2|H2]; [discriminate|].
      injection H2 as ->. reflexivity.
  - split; intros [H1 H2]; [discriminate|].
    destruct H2; discriminate.
Qed.

Lemma missingVars_nonempty (m : EnvVars) (R : list string) :
  (0 <? List.length (missingVars m R))%nat = true <->
  exists k, In k R
            /\ (obj_read m k = JUndefined \/ obj_read m k = JString "").
Proof.
  rewrite Nat.ltb_lt. split.
  - destruct (missingVars m R) as [|k l] eqn:E; simpl; [lia|].
    intros _. exists k. apply missingVars_exact. rewrite E. now left.
  - intros (k & H). apply missingVars_exact in H.
    destruct (missingVars m R); [contradiction|simpl; lia].
Qed.

(** A caller-supplied prefix is the hint and the whole active set. *)
Lemma prefixHint_custom (p : string) :
  truthy p = true ->
  prefixHint (Some p) = p /\ hint_names (prefixHint (Some p))
                                        (active_prefixes (Some p)).
Proof.
  intros H. unfold prefixHint, hint_names, active_prefixes.
  rewrite H. simpl. auto.
Qed.

End Required.

(* ===================================================================== *)
(** ** The hooks of one component *)
(* ===================================================================== *)

Section HookFacts.

Variable w : World.
Variable o : UseEnvOptions.

(** A mounted component reads its cells; the render throws when the
    development check cannot be evaluated, and then changes nothing. *)
Lemma useEnv_mounted (s : St) (c : Cells) :
  cells s = Some c ->
  fst (useEnv w o s)
  = (if check_throws w c then Throw no_process else Ok (envVars c))
  /\ globals (snd (useEnv w o s)) = globals s
  /\ cells (snd (useEnv w o s)) = Some c
  /\ (check_throws w c = true -> snd (useEnv w o s) = s).
Proof.
  destruct s as [g cs con]; simpl; intros ->.
  unfold useEnv, bind, useState_envVars, useState_error, lift,
    read_NODE_ENV, read_process_env, check_throws; simpl.
  destruct (error c) as [e|]; simpl; [|repeat split; discriminate].
  destruct (truthy e); simpl.
  - destruct (process_env w) as [env|]; simpl; [|auto].
    destruct (is_development_mode _); simpl; repeat split; discriminate.
  - destruct (process_env w); repeat split; discriminate.
Qed.

Lemma useEnv_returns_cell (s : St) (c : Cells) (m : EnvVars) :
  cells s = Some c -> check_throws w c = false -> envVars c = m ->
  fst (useEnv w o s) = Ok m.
Proof.
  intros Hc Hk <-. destruct (useEnv_mounted s c Hc) as (H & _).
  now rewrite H, Hk.
Qed.

(** The development check can be evaluated whenever [process.env] can be
    read, and whenever no diagnostic is held. *)
Lemma check_passes_with_process (c : Cells) :
  process_env w <> None -> check_throws w c = false.
Proof.
  unfold check_throws. intros H.
  destruct (error c); [|reflexivity].
  destruct (process_env w); [reflexivity|congruence].
Qed.

Lemma check_passes_without_error (c : Cells) :
  error c = None -> check_throws w c = false.
Proof. unfold check_throws. now intros ->. Qed.

(** A component that mounts while the cache is populated takes the
    cached mapping. *)
Lemma useEnv_mount_cached (s : St) (m : EnvVars) :
  cells s = None -> envCache (globals s) = Some m ->
  useEnv w o s
  = (Ok m, {| globals := globals s;
              cells := Some {| envVars := m; error := None |};
              console := console s |}).
Proof.
  destruct s as [[cache loading] cs con]; simpl; intros -> ->.
  reflexivity.
Qed.

(** A component that mounts while the cache is empty resolves on the
    spot, outside any [try]. *)
Lemma useEnv_mount_uncached (s : St) :
  cells s = None -> envCache (globals s) = None ->
  useEnv w o s
  = match getAllEnvVars w (prefix o) with
    | Ok v => (Ok v, {| globals := globals s;
                        cells := Some {| envVars := v; error := None |};
                        console := console s |})
    | Throw e => (Throw e, s)
    end.
Proof.
  destruct s as [[cache loading] cs con]; simpl; intros -> ->.
  unfold useEnv, bind, useState_envVars, get_envCache, lift; simpl.
  destruct (getAllEnvVars w (prefix o)); reflexivity.
Qed.

(** Rendering never touches the module-level variables. *)
Lemma useEnv_globals (s : St) :
  globals (snd (useEnv w o s)) = globals s.
Proof.
  destruct (cells s) as [c|] eqn:Ec.
  - now destruct (useEnv_mounted s c Ec) as (_ & H & _).
  - destruct (envCache (globals s)) as [m|] eqn:Em.
    + now rewrite (useEnv_mount_cached s m Ec Em).
    + rewrite (useEnv_mount_uncached s Ec Em).
      now destruct (getAllEnvVars w (prefix o)).
Qed.

(** With a populated cache the effect does nothing at all. *)
Lemma effect_skipped (s : St) (m : EnvVars) :
  envCache (globals s) = Some m -> useEnv_effect w o s = (Ok tt, s).
Proof.
  destruct s as [[cache loading] cs con]; simpl; intros ->. reflexivity.
Qed.

(** The pass when the resolver returns. *)
Lemma effect_pass_ok (s : St) (vars : EnvVars) :
  envCache (globals s) = None -> isLoading (globals s) = false ->
  getAllEnvVars w (prefix o) = Ok vars ->
  let merged := applyFallbacks vars (fallbacks o) in
  let missing := missingVars merged (required o) in
  useEnv_effect w o s
  = (Ok tt,
     {| globals := {| envCache := Some merged; isLoading := false |};
        cells :=
          match cells s with
          | Some c =>
              Some {| envVars := merged;
                      error := if (0 <? List.length missing)%nat
                               then Some (missing_message missing (prefix o))
                               else None |}
          | None => None
          end;
        console := console s |}).
Proof.
  destruct s as [[cache loading] cs con]; simpl; intros -> -> Hv.
  unfold useEnv_effect, bind, try_catch_finally, get_envCache,
    get_isLoading, lift; simpl.
  rewrite Hv; simpl.
  destruct (0 <? _)%nat; simpl; destruct cs; reflexivity.
Qed.

(** The pass when the resolver throws. *)
Lemma effect_pass_throw (s : St) (e : string) :
  envCache (globals s) = None -> isLoading (globals s) = false ->
  getAllEnvVars w (prefix o) = Throw e ->
  useEnv_effect w o s
  = (Ok tt,
     {| globals := {| envCache := None; isLoading := false |};
        cells :=
          match cells s with
          | Some c => Some {| envVars := envVars c;
                              error := Some (failure_message e) |}
          | None => None
          end;
        console := console s |}).
Proof.
  destruct s as [[cache loading] cs con]; simpl; intros -> -> Hv.
  unfold useEnv_effect, bind, try_catch_finally, get_envCache,
    get_isLoading, lift; simpl.
  rewrite Hv; simpl. reflexivity.
Qed.

(** The effect never lets an exception out and never leaves the
    in-progress flag raised. *)
Lemma effect_contained (s : St) :
  isLoading (globals s) = false ->
  fst (useEnv_effect w o s) = Ok tt
  /\ isLoading (globals (snd (useEnv_effect w o s))) = false.
Proof.
  intros Hl.
  destruct (envCache (globals s)) as [m|] eqn:Em.
  - rewrite (effect_skipped s m Em). auto.
  - destruct (getAllEnvVars w (prefix o)) as [vars|e] eqn:Hv.
    + rewrite (effect_pass_ok s vars Em Hl Hv). auto.
    + rewrite (effect_pass_throw s e Em Hl Hv). auto.
Qed.

End HookFacts.

(* ===================================================================== *)
(** ** Several components *)
(* ===================================================================== *)

Section SystemFacts.

Lemma render_globals w c o sys :
  sys_globals (snd (render w c o sys)) = sys_globals sys.
Proof.
  unfold render.
  pose proof (useEnv_globals w o (focus sys c)) as H.
  destruct (useEnv w o (focus sys c)) as [r s]. exact H.
Qed.

Lemma render_mounted w c o sys h :
  sys_cells sys c = Some h ->
  fst (render w c o sys)
  = (if check_throws w h then Throw no_process else Ok (envVars h))
  /\ sys_cells (snd (render w c o sys)) c = Some h.
Proof.
  intros Hc. unfold render.
  destruct (useEnv_mounted w o (focus sys c) h Hc) as (H1 & _ & H3 & _).
  destruct (useEnv w o (focus sys c)) as [r s]; simpl in *.
  now rewrite Nat.eqb_refl.
Qed.

(** A render leaves the cells of the components that do not render. *)
Lemma render_other w c c' o sys :
  c' <> c -> sys_cells (snd (render w c o sys)) c' = sys_cells sys c'.
Proof.
  intros Hne. unfold render.
  destruct (useEnv w o (focus sys c)) as [r s]; simpl.
  destruct (Nat.eqb c' c) eqn:E; [|reflexivity].
  apply Nat.eqb_eq in E. contradiction.
Qed.

(** A render never unmounts a mounted component nor changes its
    cells. *)
Lemma render_keeps_mounted w c c' o sys h :
  sys_cells sys c' = Some h ->
  sys_cells (snd (render w c o sys)) c' = Some h.
Proof.
  intros Hc. destruct (Nat.eq_dec c' c) as [->|Hne].
  - now destruct (render_mounted w c o sys h Hc).
  - now rewrite render_other.
Qed.


Lemma render_mount_cached w c o sys m :
  sys_cells sys c = None -> envCache (sys_globals sys) = Some m ->
  fst (render w c o sys) = Ok m
  /\ sys_cells (snd (render w c o sys)) c
     = Some {| envVars := m; error := None |}.
Proof.
  intros Hc Hm. unfold render.
  rewrite (useEnv_mount_cached w o (focus sys c) m Hc Hm); simpl.
  now rewrite Nat.eqb_refl.
Qed.

Lemma render_mount_uncached w c o sys :
  sys_cells sys c = None -> envCache (sys_globals sys) = None ->
  fst (render w c o sys) = getAllEnvVars w (prefix o)
  /\ sys_cells (snd (render w c o sys)) c
     = match getAllEnvVars w (prefix o) with
       | Ok v => Some {| envVars := v; error := None |}
       | Throw _ => None
       end.
Proof.
  intros Hc Hm. unfold render.
  rewrite (useEnv_mount_uncached w o (focus sys c) Hc Hm).
  destruct (getAllEnvVars w (prefix o)); simpl;
    rewrite Nat.eqb_refl; auto.
Qed.

Lemma effect_cached w c o sys m :
  envCache (sys_globals sys) = Some m ->
  sys_globals (snd (effect w c o sys)) = sys_globals sys
  /\ sys_cells (snd (effect w c o sys)) c = sys_cells sys c.
Proof.
  intros Hm. unfold effect.
  destruct (sys_cells sys c) as [h|] eqn:Hc; [|auto].
  rewrite (effect_skipped w o (focus sys c) m Hm); simpl.
  now rewrite Nat.eqb_refl.
Qed.

(** The pass run for a mounted component hands it the merged mapping and
    caches it. *)
Lemma effect_pass_cells w c o sys h vars :
  sys_cells sys c = Some h ->
  envCache (sys_globals sys) = None -> isLoading (sys_globals sys) = false ->
  getAllEnvVars w (prefix o) = Ok vars ->
  sys_globals (snd (effect w c o sys))
  = {| envCache := Some (applyFallbacks vars (fallbacks o));
       isLoading := false |}
  /\ exists err,
       sys_cells (snd (effect w c o sys)) c
       = Some {| envVars := applyFallbacks vars (fallbacks o);
                 error := err |}.
Proof.
  intros Hc Hm Hl Hv. unfold effect. rewrite Hc.
  rewrite (effect_pass_ok w o (focus sys c) vars Hm Hl Hv); simpl.
  rewrite Hc, Nat.eqb_refl. eauto.
Qed.

Lemma effect_isLoading w c o sys :
  isLoading (sys_globals sys) = false ->
  isLoading (sys_globals (snd (effect w c o sys))) = false.
Proof.
  intros Hl. unfold effect.
  destruct (sys_cells sys c) as [h|]; [|exact Hl].
  destruct (effect_contained w o (focus sys c) Hl) as (_ & H).
  destruct (useEnv_effect w o (focus sys c)) as [r s]. exact H.
Qed.

(** The in-progress flag is never seen raised between two events: the
    pass is synchronous and lowers it in its [finally]. *)
Lemma reachable_not_loading sys :
  reachable sys -> isLoading (sys_globals sys) = false.
Proof.
  induction 1 as [|w c o sys _ IH|w c o sys _ IH|sys _ IH].
  - reflexivity.
  - now rewrite render_globals.
  - now apply effect_isLoading.
  - exact IH.
Qed.

Lemma clear_globals sys :
  reachable sys -> sys_globals (clear sys) = sys_globals boot.
Proof.
  intros H. apply reachable_not_loading in H.
  unfold clear, clearEnvCache, set_envCache; simpl. now rewrite H.
Qed.

Lemma clear_cells sys c : sys_cells (clear sys) c = sys_cells sys c.
Proof.
  unfold clear, clearEnvCache, set_envCache, unfocus, focus; simpl.
  now destruct (Nat.eqb c 0) eqn:E; [apply Nat.eqb_eq in E; subst|].
Qed.

End SystemFacts.


(* ===================================================================== *)
(** ** Properties of the resolver *)
(* ===================================================================== *)

(** C1, as the specification states it, fails.  With the default
    prefixes and the ambient map
    [{REACT_APP_X: "a", VITE_X: "b"}] both keys are cleaned to [X]; the
    later write wins, so [X] holds ["b"], which is not the value of
    [REACT_APP_X]. *)
Lemma resolver_exact_counterexample : ~ resolver_exact_as_stated.
Proof.
  intros H.
  specialize
    (H [("REACT_APP_X", Some "a"); ("VITE_X", Some "b")] None).
  destruct H as [(out & Hout & Hboth & _) _].
  vm_compute in Hout. injection Hout as <-.
  destruct (Hboth "REACT_APP_X" "a") as [_ H2].
  - unfold contributes. vm_compute. auto.
  - vm_compute in H2. discriminate.
Qed.

(** C1, amended.  In the filtered context the resolver returns an object
    whose keys are exactly the original and the cleaned names, the name
    [__proto__] excepted, of the ambient keys that hold a string and start
    with an active prefix; every value in it is the unchanged value of
    such a key stored under that name; and a name holds the value [v] of
    key [k] whenever every key stored under that name carries [v] (so,
    always, when no two keys share a name).  In the unfiltered context the
    output is the ambient map itself. *)
Theorem resolver_output_characterised
        (w : World) (customPrefix : value) (env : EnvVars) :
  process_env w = Some env ->
  let P := active_prefixes customPrefix in
  (has_window w = true ->
   exists out,
     getAllEnvVars w customPrefix = Ok out
     /\ (forall n, In n (obj_keys out) <->
                   exists k v, contributes env P k v /\ names P k n)
     /\ (forall n, In n (obj_keys out) -> exists v, obj_get out n = Some v)
     /\ (forall n v, obj_get out n = Some v ->
                     exists k, contributes env P k v /\ names P k n)
     /\ (forall n k v,
            contributes env P k v -> names P k n ->
            (forall k' v', contributes env P k' v' -> names P k' n -> v' = v) ->
            obj_get out n = Some v))
  /\ (has_window w = false -> getAllEnvVars w customPrefix = Ok env).
Proof.
  intros Henv P. unfold getAllEnvVars, read_process_env. rewrite Henv.
  split; intros ->; simpl; [|reflexivity].
  exists (scan env P). split; [reflexivity|].
  split; [apply scan_keys_iff|].
  split; [apply scan_defined|].
  split; [apply scan_origin|].
  intros n k v. apply scan_unique.
Qed.

(** The first end-to-end scenario of the specification, through the
    theorem: [API_URL] and [REACT_APP_API_URL] hold ["https://x"],
    [OTHER] is left out. *)
Lemma resolver_output_characterised_witness :
  let env := [("REACT_APP_API_URL", Some "https://x"); ("OTHER", Some "y")] in
  process_env (browser env None) = Some env
  /\ getAllEnvVars (server env None) None = Ok env
  /\ exists out,
       getAllEnvVars (browser env None) None = Ok out
       /\ obj_get out "API_URL" = Some "https://x"
       /\ obj_get out "REACT_APP_API_URL" = Some "https://x"
       /\ ~ In "OTHER" (obj_keys out).
Proof.
  intros env. split; [reflexivity|]. split.
  { destruct (resolver_output_characterised (server env None) None env eq_refl)
      as [_ Hs].
    exact (Hs eq_refl). }
  destruct (resolver_output_characterised (browser env None) None env eq_refl)
    as [Hb _].
  destruct (Hb eq_refl) as (out & Hout & Hkeys & _ & _ & Huniq).
  assert (Hc : contributes env default_prefixes "REACT_APP_API_URL" "https://x")
    by (unfold contributes; vm_compute; auto).
  assert (Hall : forall n k' v',
             contributes env default_prefixes k' v' ->
             names default_prefixes k' n -> v' = "https://x").
  { intros n k' v' (Hin & Hget & Hp) _.
    destruct Hin as [<-|[<-|[]]].
    - vm_compute in Hget. now injection Hget as <-.
    - vm_compute in Hp. discriminate. }
  exists out. split; [exact Hout|]. split; [|split].
  - apply (Huniq _ "REACT_APP_API_URL");
      [exact Hc|split; [now right|discriminate]|apply Hall].
  - apply (Huniq _ "REACT_APP_API_URL");
      [exact Hc|split; [now left|discriminate]|apply Hall].
  - intros Hin. apply Hkeys in Hin.
    destruct Hin as (k & v & (Hin & _ & Hp) & Hn & _).
    destruct Hin as [<-|[<-|[]]].
    + destruct Hn as [Hn|Hn]; vm_compute in Hn; discriminate.
    + vm_compute in Hp. discriminate.
Defined.

(** C2: the code departs from the claim.  For [REACT_APP_PUBLIC_KEY]
    and the default prefixes the first matching prefix is [REACT_APP_],
    and removing that portion alone leaves [PUBLIC_KEY]; the reduction
    goes on through the remaining prefixes, finds that [PUBLIC_KEY]
    starts with [PUBLIC_] and removes that too, so the resolver stores the
    value under [KEY] and never under [PUBLIC_KEY]. *)
Theorem cleanKey_removes_a_second_prefix :
  let key := "REACT_APP_PUBLIC_KEY" in
  let env := [(key, Some "pk_live")] in
  hasValidPrefix default_prefixes key = true
  /\ first_match default_prefixes key = Some "REACT_APP_"
  /\ strip_first_match default_prefixes key = "PUBLIC_KEY"
  /\ cleanKey default_prefixes key = "KEY"
  /\ getAllEnvVars (browser env None) None
     = Ok [("KEY", Some "pk_live"); (key, Some "pk_live")]
  /\ ~ first_prefix_only_as_stated.
Proof.
  intros key env. repeat (split; [reflexivity|]).
  intros H. specialize (H None key eq_refl). vm_compute in H. discriminate.
Qed.

(** C9, as the specification states it, fails.  With the default
    prefixes and [{REACT_APP_X: "", VITE_REACT_APP_X: "1"}] the key
    [REACT_APP_X] starts with a recognized prefix and holds the empty
    string, but [VITE_REACT_APP_X] is cleaned to [REACT_APP_X] and is
    written later, so the output holds ["1"] at [REACT_APP_X].  In the
    same way, with [{REACT_APP_X: undefined, VITE_X: "1"}] the cleaned
    name [X] of the key holding [undefined] is in the output, brought
    there by [VITE_X]. *)
Lemma undefined_and_empty_counterexample : ~ undefined_and_empty_as_stated.
Proof.
  intros H.
  specialize
    (H [("REACT_APP_X", Some ""); ("VITE_REACT_APP_X", Some "1")] None).
  destruct H as (out & Hout & _ & Hempty).
  vm_compute in Hout. injection Hout as <-.
  specialize (Hempty "REACT_APP_X").
  assert (Hc : contributes
                 [("REACT_APP_X", Some ""); ("VITE_REACT_APP_X", Some "1")]
                 (active_prefixes None) "REACT_APP_X" "")
    by (unfold contributes; vm_compute; auto).
  apply Hempty in Hc. vm_compute in Hc. discriminate.
Qed.

(** C9, amended.  In the filtered context a key that holds [undefined]
    contributes nothing: the output is what it would be with that key
    deleted, and neither of its names is in the output unless another
    key, holding a string, is stored under that name.  A key that
    starts with an active prefix and holds the empty string is kept with
    the empty string under each of its names other than [__proto__],
    provided every key stored under that name holds the empty string as
    well; the name [__proto__] is never a key of the output. *)
Theorem undefined_excluded_empty_retained
        (w : World) (customPrefix : value) (env : EnvVars) :
  has_window w = true -> process_env w = Some env ->
  let P := active_prefixes customPrefix in
  exists out,
    getAllEnvVars w customPrefix = Ok out
    /\ (forall k,
           obj_get env k = None ->
           getAllEnvVars {| has_window := true;
                            process_env := Some (obj_delete env k) |}
                         customPrefix
           = Ok out)
    /\ ~ In "__proto__" (obj_keys out)
    /\ (forall k n,
           obj_get env k = None -> (n = k \/ n = cleanKey P k) ->
           (forall k' v', contributes env P k' v' -> ~ names P k' n) ->
           ~ In n (obj_keys out))
    /\ (forall k n,
           contributes env P k "" -> names P k n ->
           (forall k' v', contributes env P k' v' -> names P k' n -> v' = "") ->
           obj_get out n = Some "" /\ In n (obj_keys out)).
Proof.
  intros Hw Henv P. unfold getAllEnvVars, read_process_env.
  rewrite Hw, Henv; simpl. exists (scan env P).
  split; [reflexivity|]. split; [|split; [|split]].
  - intros k Hk. f_equal. now apply scan_delete_undefined.
  - intros Hin. apply obj_has_in in Hin.
    now rewrite scan_plain in Hin.
  - intros k n _ _ Hno Hin. apply scan_keys_iff in Hin.
    destruct Hin as (k' & v' & Hc & Hn). exact (Hno k' v' Hc Hn).
  - intros k n Hc Hn Hall.
    assert (Hg : obj_get (scan env P) n = Some "")
      by (apply (scan_unique env P n k ""); assumption).
    split; [exact Hg|]. eapply obj_get_some_in; eauto.
Qed.

Lemma undefined_excluded_empty_retained_witness :
  let env := [("REACT_APP_TOKEN", None); ("REACT_APP_PORT", Some "")] in
  has_window (browser env None) = true
  /\ process_env (browser env None) = Some env
  /\ exists out,
       getAllEnvVars (browser env None) None = Ok out
       /\ ~ In "TOKEN" (obj_keys out)
       /\ ~ In "REACT_APP_TOKEN" (obj_keys out)
       /\ obj_get out "PORT" = Some ""
       /\ obj_get out "REACT_APP_PORT" = Some "".
Proof.
  intros env. split; [reflexivity|]. split; [reflexivity|].
  destruct (undefined_excluded_empty_retained
              (browser env None) None env eq_refl eq_refl)
    as (out & Hout & _ & _ & Hundef & Hempty).
  assert (Hone : forall k' v',
             contributes env default_prefixes k' v' ->
             k' = "REACT_APP_PORT" /\ v' = "").
  { intros k' v' (Hin & Hget & _).
    destruct Hin as [<-|[<-|[]]]; vm_compute in Hget.
    - discriminate.
    - now injection Hget as <-. }
  assert (Hc : contributes env default_prefixes "REACT_APP_PORT" "")
    by (unfold contributes; vm_compute; auto).
  exists out. split; [exact Hout|]. repeat split.
  - apply (Hundef "REACT_APP_TOKEN"); [reflexivity|now right|].
    intros k' v' Hc' [Hn _]. apply Hone in Hc'. destruct Hc' as [-> _].
    destruct Hn as [Hn|Hn]; vm_compute in Hn; discriminate.
  - apply (Hundef "REACT_APP_TOKEN"); [reflexivity|now left|].
    intros k' v' Hc' [Hn _]. apply Hone in Hc'. destruct Hc' as [-> _].
    destruct Hn as [Hn|Hn]; vm_compute in Hn; discriminate.
  - apply (Hempty "REACT_APP_PORT");
      [exact Hc|split; [now right|discriminate]|].
    intros k' v' Hc' _. now apply Hone in Hc'.
  - apply (Hempty "REACT_APP_PORT");
      [exact Hc|split; [now left|discriminate]|].
    intros k' v' Hc' _. now apply Hone in Hc'.
Defined.


(* ===================================================================== *)
(** ** The resolution pass *)
(* ===================================================================== *)

(** C3: the code departs from the claim.  With no caller-supplied prefix
    the active set is the four default prefixes, and a variable named
    [PUBLIC_API_URL] does satisfy the requirement [API_URL]; yet the
    hint of the diagnostic is the literal [REACT_APP_/NEXT_PUBLIC_/VITE_],
    which leaves [PUBLIC_] out.  The list of missing keys and the hint for
    a caller-supplied prefix are as claimed ([missingVars_exact],
    [prefixHint_custom]). *)
Theorem default_hint_leaves_out_PUBLIC :
  let o := {| prefix := None; required := ["API_URL"]; fallbacks := [] |} in
  let dev := Some "development" in
  sys_cells (snd (invoke (browser [] dev) 0 o true boot)) 0
  = Some {| envVars := [];
            error := Some ("Missing required environment variables: API_URL. "
                           ++ "Make sure they are prefixed with "
                           ++ "REACT_APP_/NEXT_PUBLIC_/VITE_"
                           ++ " in your .env file.") |}
  /\ active_prefixes (prefix o)
     = ["REACT_APP_"; "NEXT_PUBLIC_"; "VITE_"; "PUBLIC_"]
  /\ ~ hint_names (prefixHint (prefix o)) (active_prefixes (prefix o))
  /\ sys_cells
       (snd (invoke (browser [("PUBLIC_API_URL", Some "https://x")] dev)
                    0 o true boot)) 0
     = Some {| envVars := [("API_URL", Some "https://x");
                           ("PUBLIC_API_URL", Some "https://x")];
               error := None |}.
Proof.
  intros o dev. split; [reflexivity|]. split; [reflexivity|].
  split; [|reflexivity].
  unfold hint_names. vm_compute. discriminate.
Qed.

(** C4.  When the pass runs and the resolver returns a mapping in which
    [K] holds a string, the merged mapping, which is cached and which the
    component holds from then on, holds the same string at [K] whatever
    the fallback table says; and the merged mapping differs from the
    resolution only at keys that the resolution leaves undefined, where
    it holds the fallback.  Every later render of the component returns
    the merged mapping, except in one case, where it throws: a required
    key is missing and the render happens in a world without
    [process]. *)
Theorem fallback_never_overrides
        (w : World) (o : UseEnvOptions) (s : St) (c : Cells)
        (vars : EnvVars) (K v : string) :
  cells s = Some c ->
  envCache (globals s) = None -> isLoading (globals s) = false ->
  getAllEnvVars w (prefix o) = Ok vars ->
  obj_get vars K = Some v ->
  let s' := snd (useEnv_effect w o s) in
  exists m,
    envCache (globals s') = Some m
    /\ (exists c',
           cells s' = Some c' /\ envVars c' = m
           /\ (error c' = None <-> missingVars m (required o) = [])
           /\ forall w' o',
                fst (useEnv w' o' s')
                = if check_throws w' c' then Throw no_process else Ok m)
    /\ (forall w' o',
           process_env w' <> None \/ missingVars m (required o) = [] ->
           fst (useEnv w' o' s') = Ok m)
    /\ obj_get m K = Some v
    /\ (forall K', obj_get m K' <> obj_get vars K' ->
                   obj_get vars K' = None
                   /\ obj_get m K' = fallback_get (fallbacks o) K').
Proof.
  intros Hc Hcache Hload Hvars HK s'. subst s'.
  rewrite (effect_pass_ok w o s vars Hcache Hload Hvars); simpl.
  exists (applyFallbacks vars (fallbacks o)).
  rewrite Hc.
  set (m := applyFallbacks vars (fallbacks o)).
  set (c' := {| envVars := m; error := _ |}).
  set (s' := {| globals := _; cells := Some c'; console := _ |}).
  assert (Herr : error c' = None <-> missingVars m (required o) = []).
  { unfold c'; simpl. destruct (missingVars m (required o)); simpl;
      split; congruence. }
  assert (Hrender : forall w' o',
             fst (useEnv w' o' s')
             = if check_throws w' c' then Throw no_process else Ok m).
  { intros w' o'. now destruct (useEnv_mounted w' o' s' c' eq_refl). }
  split; [reflexivity|]. split; [|split; [|split]].
  - exists c'. repeat split; solve [apply Herr; assumption | apply Hrender].
  - intros w' o' Hok. rewrite Hrender.
    destruct Hok as [Hok|Hok].
    + now rewrite check_passes_with_process.
    + rewrite check_passes_without_error; [reflexivity|now apply Herr].
  - subst m. destruct (applyFallbacks_own (fallbacks o) vars K) as [H|[H _]];
      congruence.
  - subst m. intros K' Hne.
    destruct (applyFallbacks_own (fallbacks o) vars K') as [H|H];
      [congruence|exact H].
Qed.

Lemma fallback_never_overrides_witness :
  let w := browser [("REACT_APP_PORT", Some "8080")] None in
  let o := {| prefix := None; required := [];
              fallbacks := [("PORT", "3000"); ("HOST", "localhost")] |} in
  let c := {| envVars := []; error := None |} in
  let s := {| globals := {| envCache := None; isLoading := false |};
              cells := Some c; console := [] |} in
  exists m,
    envCache (globals (snd (useEnv_effect w o s))) = Some m
    /\ obj_get m "PORT" = Some "8080".
Proof.
  intros w o c s.
  destruct (fallback_never_overrides
              w o s c
              [("PORT", Some "8080"); ("REACT_APP_PORT", Some "8080")]
              "PORT" "8080" eq_refl eq_refl eq_refl eq_refl eq_refl)
    as (m & Hm & _ & _ & HK & _).
  exists m. split; [exact Hm|exact HK].
Defined.

(** The resolver throws only when there is no [process], and then with
    the reference error. *)
Lemma getAllEnvVars_throws (w : World) (p : value) (e : string) :
  getAllEnvVars w p = Throw e -> process_env w = None /\ e = no_process.
Proof.
  unfold getAllEnvVars, read_process_env, no_process.
  destruct (negb (has_window w)), (process_env w);
    intros H; try discriminate; injection H as <-; auto.
Qed.

Lemma failure_message_truthy (e : string) : truthy (failure_message e) = true.
Proof. reflexivity. Qed.

(** C10: the code departs from the claim.  Take any state with an empty
    cache and any world in which the resolver throws [e].  The [try] of
    the effect contains the failure: for a mounted component the pass
    returns normally, leaves the cache empty and the mapping of the
    component as it was, lowers the in-progress flag, logs nothing and
    sets the diagnostic.  But the same failure gets out in two other
    places.  A component that mounts calls the resolver from the
    [useState] initialiser, outside any [try]: its render throws [e] and
    changes nothing.  And the render that follows a failed pass, in the
    same world and with any options, finds the diagnostic truthy,
    evaluates [process.env.NODE_ENV] and throws, where the claim has it
    return the previous mapping. *)
Theorem scan_failure_escapes_the_hook
        (w : World) (o o' : UseEnvOptions) (s : St) (e : string) :
  envCache (globals s) = None -> isLoading (globals s) = false ->
  getAllEnvVars w (prefix o) = Throw e ->
  match cells s with
  | None => useEnv w o s = (Throw e, s)
  | Some c =>
      let s' := snd (useEnv_effect w o s) in
      fst (useEnv_effect w o s) = Ok tt
      /\ globals s' = {| envCache := None; isLoading := false |}
      /\ cells s' = Some {| envVars := envVars c;
                            error := Some (failure_message e) |}
      /\ console s' = console s
      /\ useEnv w o' s' = (Throw no_process, s')
  end.
Proof.
  intros Hm Hl Hv.
  destruct (cells s) as [c|] eqn:Hc.
  - rewrite (effect_pass_throw w o s e Hm Hl Hv), Hc. simpl.
    repeat (split; [reflexivity|]).
    destruct (getAllEnvVars_throws w (prefix o) e Hv) as [Hw _].
    set (c' := {| envVars := envVars c; error := Some (failure_message e) |}).
    set (s' := {| globals := _; cells := Some c'; console := _ |}).
    assert (Ht : check_throws w c' = true).
    { unfold check_throws, c'. simpl. rewrite Hw.
      apply failure_message_truthy. }
    destruct (useEnv_mounted w o' s' c' eq_refl) as (H1 & _ & _ & H4).
    rewrite Ht in H1. specialize (H4 Ht).
    destruct (useEnv w o' s') as [r s'']. simpl in *. congruence.
  - rewrite (useEnv_mount_uncached w o s Hc Hm), Hv. reflexivity.
Qed.

(** A component mounted while [process.env] could be read, then the
    cache cleared and [process] gone: the pass is contained, the next
    render throws; and a component that mounts in that world throws at
    once. *)
Lemma scan_failure_escapes_the_hook_witness :
  let w1 := browser [("REACT_APP_API_URL", Some "https://x")] None in
  let w := browser_without_process in
  let sys0 := clear (snd (invoke w1 0 no_options true boot)) in
  let sys1 := snd (effect w 0 no_options sys0) in
  sys_cells sys0 0
  = Some {| envVars := [("API_URL", Some "https://x");
                        ("REACT_APP_API_URL", Some "https://x")];
            error := None |}
  /\ fst (effect w 0 no_options sys0) = Ok tt
  /\ fst (render w 0 no_options sys1) = Throw no_process
  /\ fst (render w 1 no_options sys0) = Throw no_process.
Proof.
  intros w1 w sys0 sys1.
  pose proof (scan_failure_escapes_the_hook w no_options no_options
                (focus sys0 0) no_process eq_refl eq_refl eq_refl) as H0.
  pose proof (scan_failure_escapes_the_hook w no_options no_options
                (focus sys0 1) no_process eq_refl eq_refl eq_refl) as H1.
  vm_compute in H0, H1.
  destruct H0 as (Ha & _ & _ & _ & Hb).
  split; [reflexivity|]. split; [|split].
  - exact Ha.
  - exact (f_equal fst Hb).
  - exact (f_equal fst H1).
Defined.

(** The claim of C10 as the specification words it fails on the code: a
    component mounts while [process.env] holds [REACT_APP_API_URL], the
    cache is cleared, and its effect then runs where there is no
    [process].  The pass fails and is contained, but the next render of
    the component throws. *)
Lemma failure_contained_counterexample : ~ failure_contained_as_stated.
Proof.
  intros H.
  pose (w1 := browser [("REACT_APP_API_URL", Some "https://x")] None).
  pose (sys0 := clear (snd (effect w1 0 no_options
                              (snd (render w1 0 no_options boot))))).
  assert (Hr : reachable sys0)
    by (apply reach_clear, reach_effect, reach_render, reach_boot).
  destruct (H browser_without_process 0 no_options sys0 _ no_process
              Hr eq_refl eq_refl eq_refl) as (_ & _ & _ & Hrender).
  vm_compute in Hrender. discriminate.
Qed.



(* ===================================================================== *)
(** ** Invocations and schedules *)
(* ===================================================================== *)

Section Invocations.

Variable w : World.
Variable c : nat.
Variable o : UseEnvOptions.
Variable d : bool.

Lemma invoke_reachable sys :
  reachable sys -> reachable (snd (invoke w c o d sys)).
Proof.
  intros H. unfold invoke.
  pose proof (reach_render w c o sys H) as Hr.
  destruct (render w c o sys) as [r sys1]; simpl in *.
  destruct r as [m|e]; [|exact Hr].
  destruct (_ || d); simpl; [now apply reach_effect|exact Hr].
Qed.

(** With a populated cache an invocation resolves nothing: a component
    that mounts takes the cached mapping, a mounted one returns what it
    holds or throws at the development check, and neither the
    module-level variables nor the cells of a mounted component change. *)
Lemma invoke_cached sys m :
  envCache (sys_globals sys) = Some m ->
  fst (invoke w c o d sys)
  = match sys_cells sys c with
    | Some h => if check_throws w h then Throw no_process else Ok (envVars h)
    | None => Ok m
    end
  /\ sys_globals (snd (invoke w c o d sys)) = sys_globals sys
  /\ sys_cells (snd (invoke w c o d sys)) c
     = Some match sys_cells sys c with
            | Some h => h
            | None => {| envVars := m; error := None |}
            end.
Proof.
  intros Hm. unfold invoke.
  pose proof (render_globals w c o sys) as Hg.
  assert (Hr : fst (render w c o sys)
               = match sys_cells sys c with
                 | Some h => if check_throws w h then Throw no_process
                             else Ok (envVars h)
                 | None => Ok m
                 end
               /\ sys_cells (snd (render w c o sys)) c
                  = Some match sys_cells sys c with
                         | Some h => h
                         | None => {| envVars := m; error := None |}
                         end).
  { destruct (sys_cells sys c) as [h|] eqn:Hc.
    - now apply render_mounted.
    - now apply render_mount_cached. }
  destruct (render w c o sys) as [r sys1]; simpl in *.
  destruct Hr as [Hr Hcells].
  destruct r as [m'|e]; [|auto].
  destruct (_ || d); simpl; [|auto].
  rewrite <- Hg in Hm.
  destruct (effect_cached w c o sys1 m Hm) as [H1 H2].
  rewrite H1, H2. auto.
Qed.

End Invocations.

Section Schedules.

Lemma step_reachable sys ev : reachable sys -> reachable (step sys ev).
Proof.
  intros H. destruct ev; simpl;
    [now apply reach_render|now apply reach_effect|now apply reach_clear].
Qed.

Lemma run_reachable evs sys : reachable sys -> reachable (run evs sys).
Proof.
  revert sys. induction evs as [|ev evs IH]; intros sys H; [exact H|].
  apply IH, step_reachable, H.
Qed.

(** The resolver returns only where [process.env] can be read. *)
Lemma getAllEnvVars_ok_process (w : World) (p : value) (vars : EnvVars) :
  getAllEnvVars w p = Ok vars -> process_env w <> None.
Proof.
  unfold getAllEnvVars, read_process_env.
  destruct (negb (has_window w)), (process_env w); discriminate.
Qed.



(** The render phase of a commit leaves the module-level variables and
    the cells of the mounted components. *)
Lemma run_renders rs sys :
  renders_only rs = true ->
  sys_globals (run rs sys) = sys_globals sys
  /\ forall c h, sys_cells sys c = Some h ->
                 sys_cells (run rs sys) c = Some h.
Proof.
  revert sys. induction rs as [|ev rs IH]; intros sys Hrs; [auto|].
  simpl in Hrs. apply andb_prop in Hrs as [Hev Hrs].
  destruct ev as [w c o| |]; try discriminate.
  destruct (IH (snd (render w c o sys)) Hrs) as [H1 H2].
  simpl. split.
  - rewrite H1. apply render_globals.
  - intros c' h Hc. apply H2. now apply render_keeps_mounted.
Qed.



End Schedules.




(** C6, as the specification states it, fails.  A component renders
    while [REACT_APP_API_URL] is ["https://old"]; the ambient map then
    changes to ["https://new"] and the cache is cleared.  The next
    invocation by that component returns the mapping it holds, with
    ["https://old"]; a freshly started process would return
    ["https://new"]. *)
Lemma clear_then_fresh_counterexample : ~ clear_then_fresh_as_stated.
Proof.
  intros H.
  pose (w1 := browser [("REACT_APP_API_URL", Some "https://old")] None).
  pose (w2 := browser [("REACT_APP_API_URL", Some "https://new")] None).
  specialize (H w2 0 no_options (snd (render w1 0 no_options boot))
                (reach_render w1 0 no_options boot reach_boot)).
  vm_compute in H. discriminate.
Qed.

(** C6, amended.  [clearEnvCache] always returns and leaves the cache
    empty.  After it, the invocation by a component that mounts returns a
    fresh resolution of the ambient map, the same outcome as in a freshly
    started process.  A component that was mounted before the clear
    returns, at its next render, the mapping it holds (or throws at the
    development check).  The first effect to run after the clear, for a
    mounted component and after any number of renders, resolves afresh
    where the resolver returns: it caches the fresh resolution with the
    fallbacks of that component merged in, and the next render of the
    component returns it. *)
Theorem clear_then_mount_is_fresh
        (w : World) (c : nat) (o : UseEnvOptions) (sys : Sys)
        (rs : list Event) :
  reachable sys -> renders_only rs = true ->
  (forall s, fst (clearEnvCache s) = Ok tt)
  /\ envCache (sys_globals (clear sys)) = None
  /\ (sys_cells sys c = None ->
      fst (render w c o (clear sys)) = getAllEnvVars w (prefix o)
      /\ fst (render w c o (clear sys)) = fst (render w c o boot))
  /\ (forall h,
         sys_cells sys c = Some h ->
         fst (render w c o (clear sys))
         = if check_throws w h then Throw no_process else Ok (envVars h))
  /\ (forall vars,
         getAllEnvVars w (prefix o) = Ok vars ->
         sys_cells (run rs (clear sys)) c <> None ->
         let sys' := snd (effect w c o (run rs (clear sys))) in
         sys_globals sys'
         = {| envCache := Some (applyFallbacks vars (fallbacks o));
              isLoading := false |}
         /\ fst (render w c o sys')
            = Ok (applyFallbacks vars (fallbacks o))).
Proof.
  intros Hreach Hrs.
  pose proof (clear_globals sys Hreach) as Hg.
  pose proof (clear_cells sys c) as Hcells.
  assert (Hm : envCache (sys_globals (clear sys)) = None) by now rewrite Hg.
  split; [reflexivity|]. split; [exact Hm|]. split; [|split].
  - intros Hc. rewrite Hc in Hcells.
    destruct (render_mount_uncached w c o (clear sys) Hcells Hm) as [H1 _].
    destruct (render_mount_uncached w c o boot eq_refl eq_refl) as [H2 _].
    split; congruence.
  - intros h Hc. rewrite Hc in Hcells.
    now destruct (render_mounted w c o (clear sys) h Hcells).
  - intros vars Hv Hmounted sys'. subst sys'.
    destruct (sys_cells (run rs (clear sys)) c) as [h|] eqn:Hc; [|congruence].
    destruct (run_renders rs (clear sys) Hrs) as [Hg' _].
    assert (Hm' : envCache (sys_globals (run rs (clear sys))) = None)
      by congruence.
    assert (Hl' : isLoading (sys_globals (run rs (clear sys))) = false)
      by (apply reachable_not_loading, run_reachable, reach_clear, Hreach).
    destruct (effect_pass_cells w c o _ h vars Hc Hm' Hl' Hv)
      as (H1 & err & H2).
    split; [exact H1|].
    destruct (render_mounted w c o _ _ H2) as [H3 _].
    rewrite (check_passes_with_process w _
               (getAllEnvVars_ok_process w _ vars Hv)) in H3.
    exact H3.
Qed.

(** A component mounts while [REACT_APP_API_URL] is ["https://old"];
    the ambient map changes and the cache is cleared.  A second
    component that mounts now sees ["https://new"]; the first still
    returns ["https://old"] at its next render, and ["https://new"] once
    its effect has run. *)
Lemma clear_then_mount_is_fresh_witness :
  let w1 := browser [("REACT_APP_API_URL", Some "https://old")] None in
  let w2 := browser [("REACT_APP_API_URL", Some "https://new")] None in
  let old := [("API_URL", Some "https://old");
              ("REACT_APP_API_URL", Some "https://old")] in
  let new := [("API_URL", Some "https://new");
              ("REACT_APP_API_URL", Some "https://new")] in
  let sys := snd (effect w1 0 no_options (snd (render w1 0 no_options boot))) in
  envCache (sys_globals sys) = Some old
  /\ fst (render w2 1 no_options (clear sys)) = Ok new
  /\ fst (render w2 0 no_options (clear sys)) = Ok old
  /\ fst (render w2 0 no_options
            (snd (effect w2 0 no_options
                    (run [Render w2 0 no_options; Render w2 1 no_options]
                         (clear sys)))))
     = Ok new.
Proof.
  intros w1 w2 old new sys.
  assert (Hr : reachable sys)
    by (apply reach_effect, reach_render, reach_boot).
  split; [reflexivity|].
  destruct (clear_then_mount_is_fresh w2 1 no_options sys [] Hr eq_refl)
    as (_ & _ & Hnew & _).
  destruct (clear_then_mount_is_fresh w2 0 no_options sys
              [Render w2 0 no_options; Render w2 1 no_options] Hr eq_refl)
    as (_ & _ & _ & Hold & Hpass).
  split; [exact (proj1 (Hnew eq_refl))|].
  split; [exact (Hold _ eq_refl)|].
  refine (proj2 (Hpass new eq_refl _)). discriminate.
Defined.

(** C7, as claimed, fails.  Two components render before any effect has
    run, the first with the fallback [PORT: "3000"], the second without
    options; both initialise their cells with the bare resolution [{}].
    The effect of the first populates the cache with [{PORT: "3000"}]; the
    effect of the second finds the cache populated and does nothing.  The
    next invocation by the second component returns [{}], the mapping it
    holds, not the cached one. *)
Lemma cache_wins_counterexample : ~ cache_wins_as_stated.
Proof.
  intros H.
  pose (w := browser [] None).
  pose (o1 := {| prefix := None; required := [];
                 fallbacks := [("PORT", "3000")] |}).
  pose (sys := snd (effect w 1 no_options
                      (snd (effect w 0 o1
                              (snd (render w 1 no_options
                                      (snd (render w 0 o1 boot)))))))).
  assert (Hr : reachable sys)
    by (unfold sys; repeat first [apply reach_effect | apply reach_render];
        exact reach_boot).
  specialize (H w 1 no_options sys [("PORT", Some "3000")] Hr eq_refl).
  vm_compute in H. discriminate.
Qed.

(** C7, amended.  While the cache is populated, whatever configuration
    an invocation carries: a component that mounts gets the cached
    mapping; a component that is already mounted gets the mapping it
    holds, unless it holds a diagnostic in a world without [process],
    where its render throws at the development check; and no resolution,
    merge or required check takes place, as the module-level variables
    and the cells of a mounted component, the error cell included, stay
    as they are. *)
Theorem populated_cache_wins
        (w : World) (c : nat) (o : UseEnvOptions) (d : bool)
        (sys : Sys) (m : EnvVars) :
  envCache (sys_globals sys) = Some m ->
  (sys_cells sys c = None ->
   fst (invoke w c o d sys) = Ok m
   /\ sys_cells (snd (invoke w c o d sys)) c
      = Some {| envVars := m; error := None |})
  /\ (forall h, sys_cells sys c = Some h ->
                fst (invoke w c o d sys)
                = (if check_throws w h then Throw no_process
                   else Ok (envVars h))
                /\ sys_cells (snd (invoke w c o d sys)) c = Some h)
  /\ sys_globals (snd (invoke w c o d sys)) = sys_globals sys.
Proof.
  intros Hm.
  destruct (invoke_cached w c o d sys m Hm) as (H1 & H2 & H3).
  split; [|split; [|exact H2]].
  - intros Hc. rewrite Hc in H1, H3. auto.
  - intros h Hc. rewrite Hc in H1, H3. auto.
Qed.

Lemma populated_cache_wins_witness :
  let w := browser [("REACT_APP_API_URL", Some "https://x")] None in
  let o2 := {| prefix := Some "VITE_"; required := ["TOKEN"];
               fallbacks := [("PORT", "3000")] |} in
  let m := [("API_URL", Some "https://x");
            ("REACT_APP_API_URL", Some "https://x")] in
  let sys := snd (invoke w 0 no_options true boot) in
  envCache (sys_globals sys) = Some m
  /\ fst (invoke w 1 o2 true sys) = Ok m
  /\ sys_globals (snd (invoke w 1 o2 true sys)) = sys_globals sys
  /\ fst (invoke w 0 o2 true sys) = Ok m.
Proof.
  intros w o2 m sys. split; [reflexivity|].
  destruct (populated_cache_wins w 1 o2 true sys m eq_refl) as (H1 & _ & H3).
  destruct (populated_cache_wins w 0 o2 true sys m eq_refl) as (_ & H2 & _).
  split; [exact (proj1 (H1 eq_refl))|]. split; [exact H3|].
  exact (proj1 (H2 {| envVars := m; error := None |} eq_refl)).
Defined.

(* ===================================================================== *)
(** ** Further properties: cleaning a key *)
(* ===================================================================== *)

Lemma string_app_assoc (a b c : string) : ((a ++ b) ++ c = a ++ (b ++ c))%string.
Proof. induction a as [|x a IH]; simpl; [reflexivity|now rewrite IH]. Qed.

(** X1.  Whatever the prefix set, the cleaned key is what is left of the
    key after a leading part has been dropped: cleaning never changes or
    adds a character, and never touches the end of the key. *)
Theorem cleaned_key_is_a_suffix (Q : list string) (k : string) :
  exists dropped, k = dropped ++ cleanKey Q k.
Proof.
  unfold cleanKey. revert k.
  induction Q as [|q Q IH]; intros k; simpl.
  - now exists "".
  - destruct (startsWith k q) eqn:Hq.
    + destruct (IH (slice k (String.length q))) as (d & Hd).
      exists (q ++ d). rewrite string_app_assoc, <- Hd.
      now apply startsWith_split.
    + apply IH.
Qed.

(** X2.  In the filtered context every ambient key that holds a string
    and starts with an active prefix yields two different names, the key
    and its cleaned name, which is strictly shorter and so never the key
    itself; each of the two is a key of the output unless it is
    [__proto__], which never is. *)
Theorem matching_key_is_stored_twice
        (w : World) (customPrefix : value) (env : EnvVars) (k v : string) :
  has_window w = true -> process_env w = Some env ->
  contributes env (active_prefixes customPrefix) k v ->
  exists out,
    getAllEnvVars w customPrefix = Ok out
    /\ (k <> "__proto__" -> In k (obj_keys out))
    /\ (cleanKey (active_prefixes customPrefix) k <> "__proto__" ->
        In (cleanKey (active_prefixes customPrefix) k) (obj_keys out))
    /\ ~ In "__proto__" (obj_keys out)
    /\ cleanKey (active_prefixes customPrefix) k <> k
    /\ String.length (cleanKey (active_prefixes customPrefix) k)
       < String.length k.
Proof.
  intros Hw Henv Hc. unfold getAllEnvVars, read_process_env.
  rewrite Hw, Henv; simpl. eexists. split; [reflexivity|].
  assert (Hlt : String.length (cleanKey (active_prefixes customPrefix) k)
                < String.length k)
    by (apply cleanKey_shorter; apply Hc).
  split; [|split; [|split; [|split]]].
  - intros Hk. apply scan_keys_iff. exists k, v.
    split; [exact Hc|]. split; [now left|exact Hk].
  - intros Hk. apply scan_keys_iff. exists k, v.
    split; [exact Hc|]. split; [now right|exact Hk].
  - intros Hin. apply scan_keys_iff in Hin.
    destruct Hin as (k' & v' & _ & _ & Hn). now apply Hn.
  - intros Heq. rewrite Heq in Hlt. lia.
  - exact Hlt.
Qed.

Lemma matching_key_is_stored_twice_witness :
  let env := [("VITE_API_URL", Some "https://x");
              ("VITE___proto__", Some "p")] in
  contributes env (active_prefixes None) "VITE_API_URL" "https://x"
  /\ contributes env (active_prefixes None) "VITE___proto__" "p"
  /\ exists out,
       getAllEnvVars (browser env None) None = Ok out
       /\ In "VITE_API_URL" (obj_keys out)
       /\ In "API_URL" (obj_keys out)
       /\ In "VITE___proto__" (obj_keys out)
       /\ ~ In "__proto__" (obj_keys out).
Proof.
  intros env.
  assert (Hc : contributes env (active_prefixes None)
                           "VITE_API_URL" "https://x")
    by (unfold contributes; vm_compute; auto).
  assert (Hp : contributes env (active_prefixes None)
                           "VITE___proto__" "p")
    by (unfold contributes; vm_compute; auto).
  split; [exact Hc|]. split; [exact Hp|].
  destruct (matching_key_is_stored_twice
              (browser env None) None env _ _ eq_refl eq_refl Hc)
    as (out & Hout & H1 & H2 & _).
  destruct (matching_key_is_stored_twice
              (browser env None) None env _ _ eq_refl eq_refl Hp)
    as (out' & Hout' & H3 & _ & H4 & _).
  assert (out' = out) by congruence. subst out'.
  exists out. split; [exact Hout|].
  split; [apply H1; discriminate|].
  split; [apply H2; vm_compute; discriminate|].
  split; [apply H3; discriminate|exact H4].
Defined.

(** X3.  A caller-supplied, non-empty prefix replaces the default set:
    a key matches exactly when it starts with that prefix, the default
    prefixes match nothing any more, and the cleaned key of a matching key
    is the key without that one prefix, so that prefix and cleaned key put
    together give the key back. *)
Theorem custom_prefix_round_trip (p k : string) :
  truthy p = true ->
  hasValidPrefix (active_prefixes (Some p)) k = startsWith k p
  /\ (startsWith k p = true ->
      p ++ cleanKey (active_prefixes (Some p)) k = k)
  /\ (startsWith k p = false ->
      cleanKey (active_prefixes (Some p)) k = k).
Proof.
  intros Ht. unfold active_prefixes, hasValidPrefix, cleanKey.
  rewrite Ht. simpl. rewrite orb_false_r.
  split; [reflexivity|]. split; intros Hs; rewrite Hs.
  - symmetry. now apply startsWith_split.
  - reflexivity.
Qed.

Lemma custom_prefix_round_trip_witness :
  truthy "MY_" = true
  /\ hasValidPrefix (active_prefixes (Some "MY_")) "REACT_APP_URL" = false
  /\ startsWith "MY_TOKEN" "MY_" = true
  /\ "MY_" ++ cleanKey (active_prefixes (Some "MY_")) "MY_TOKEN" = "MY_TOKEN"
  /\ startsWith "REACT_APP_URL" "MY_" = false
  /\ cleanKey (active_prefixes (Some "MY_")) "REACT_APP_URL" = "REACT_APP_URL".
Proof.
  split; [reflexivity|].
  destruct (custom_prefix_round_trip "MY_" "MY_TOKEN" eq_refl)
    as (_ & H2 & _).
  destruct (custom_prefix_round_trip "MY_" "REACT_APP_URL" eq_refl)
    as (H1 & _ & H3).
  split; [rewrite H1; reflexivity|]. split; [reflexivity|].
  split; [exact (H2 eq_refl)|]. split; [reflexivity|exact (H3 eq_refl)].
Defined.

(** X4.  For any prefix set, when a key matches and what is left of it
    after its first matching prefix starts with none of the prefixes, the
    cleaning removes that prefix and nothing else: first matching prefix
    and cleaned key put together give the key back. *)
Theorem cleaning_removes_one_prefix (Q : list string) (k : string) :
  hasValidPrefix Q k = true ->
  (forall q, In q Q -> startsWith (strip_first_match Q k) q = false) ->
  exists p,
    first_match Q k = Some p /\ In p Q /\ k = p ++ cleanKey Q k.
Proof.
  intros Hv Hno.
  destruct (hasValidPrefix_first_match Q k Hv) as (p & Hp).
  destruct (first_match_sound Q k p Hp) as [Hin Hs].
  exists p. split; [exact Hp|]. split; [exact Hin|].
  rewrite (cleanKey_unchained Q k Hv Hno).
  unfold strip_first_match. rewrite Hp. now apply startsWith_split.
Qed.

Lemma cleaning_removes_one_prefix_witness :
  hasValidPrefix default_prefixes "NEXT_PUBLIC_API_URL" = true
  /\ exists p,
       first_match default_prefixes "NEXT_PUBLIC_API_URL" = Some p
       /\ "NEXT_PUBLIC_API_URL"
          = p ++ cleanKey default_prefixes "NEXT_PUBLIC_API_URL".
Proof.
  split; [reflexivity|].
  destruct (cleaning_removes_one_prefix
              default_prefixes "NEXT_PUBLIC_API_URL" eq_refl)
    as (p & Hp & _ & Hk).
  - intros q [<-|[<-|[<-|[<-|[]]]]]; reflexivity.
  - exists p. split; [exact Hp|exact Hk].
Defined.

(** X5.  A key that starts with none of the prefixes is left as it is
    by the cleaning, and the filtered resolver stores nothing for it: it
    is a key of the output only if some matching key is stored under that
    very name. *)
Theorem unprefixed_key_is_not_exposed
        (w : World) (customPrefix : value) (env : EnvVars) (k : string) :
  has_window w = true -> process_env w = Some env ->
  hasValidPrefix (active_prefixes customPrefix) k = false ->
  cleanKey (active_prefixes customPrefix) k = k
  /\ exists out,
       getAllEnvVars w customPrefix = Ok out
       /\ (In k (obj_keys out) ->
           exists k' v', k' <> k
                         /\ contributes env (active_prefixes customPrefix) k' v'
                         /\ cleanKey (active_prefixes customPrefix) k' = k).
Proof.
  intros Hw Henv Hno. split.
  - apply cleanKey_no_match. intros q Hq.
    unfold hasValidPrefix in Hno.
    destruct (startsWith k q) eqn:E; [|reflexivity].
    assert (existsb (fun prefix => startsWith k prefix)
                    (active_prefixes customPrefix) = true)
      by (apply existsb_exists; eauto).
    congruence.
  - unfold getAllEnvVars, read_process_env. rewrite Hw, Henv; simpl.
    eexists. split; [reflexivity|]. intros Hin.
    apply scan_keys_iff in Hin. destruct Hin as (k' & v' & Hc & Hn).
    assert (Hne : k' <> k).
    { intros ->. destruct Hc as (_ & _ & Hp). congruence. }
    exists k', v'. split; [exact Hne|]. split; [exact Hc|].
    destruct Hn as [[Hn|Hn] _]; [congruence|now symmetry].
Qed.

Lemma unprefixed_key_is_not_exposed_witness :
  let env := [("SECRET_KEY", Some "s3cr3t"); ("VITE_PORT", Some "1")] in
  hasValidPrefix (active_prefixes None) "SECRET_KEY" = false
  /\ exists out,
       getAllEnvVars (browser env None) None = Ok out
       /\ ~ In "SECRET_KEY" (obj_keys out).
Proof.
  intros env. split; [reflexivity|].
  destruct (unprefixed_key_is_not_exposed
              (browser env None) None env "SECRET_KEY"
              eq_refl eq_refl eq_refl)
    as (_ & out & Hout & H).
  exists out. split; [exact Hout|]. intros Hin.
  destruct (H Hin) as (k' & v' & Hne & (Hk & _ & _) & Hclean).
  destruct Hk as [<-|[<-|[]]].
  - now apply Hne.
  - vm_compute in Hclean. discriminate.
Defined.

(* ===================================================================== *)
(* ===================================================================== *)
(** ** Further properties: fallbacks and the required check *)
(* ===================================================================== *)

(** X6.  A required key is reported missing exactly when the
    resolution reads as the empty string at it, whatever its fallback, or
    reads as [undefined] at it while the fallback table has no entry, or
    an empty one, for it.  So a fallback rescues an absent variable and
    never an empty one, and a name that every object inherits, such as
    [toString], is never reported. *)
Theorem required_key_reported_iff
        (vars : EnvVars) (fb : list (string * string))
        (R : list string) (k : string) :
  In k (missingVars (applyFallbacks vars fb) R) <->
  In k R
  /\ (obj_read vars k = JString ""
      \/ (obj_read vars k = JUndefined
          /\ (fallback_get fb k = None \/ fallback_get fb k = Some ""))).
Proof.
  rewrite missingVars_exact, applyFallbacks_read.
  destruct (obj_read vars k) as [|v|n].
  - split; intros [H1 H2]; (split; [exact H1|]).
    + right. split; [reflexivity|].
      destruct (fallback_get fb k) as [v|]; simpl in H2; [|now left].
      destruct H2 as [H2|H2]; [discriminate|]. right. congruence.
    + destruct H2 as [H2|[_ [H2|H2]]]; [discriminate| |]; rewrite H2; simpl; auto.
  - split; intros [H1 H2]; (split; [exact H1|]).
    + destruct H2 as [H2|H2]; [discriminate|now left].
    + destruct H2 as [H2|[H2 _]]; [now right|discriminate].
  - split; intros [H1 H2]; exfalso.
    + destruct H2 as [H2|H2]; discriminate.
    + destruct H2 as [H2|[H2 _]]; discriminate.
Qed.

(** X7.  The keys of the merged mapping are the keys of the resolution
    and the fallback keys at which the resolution reads as [undefined].
    After the merge no fallback key reads as [undefined]: it reads as the
    resolved string when there is one, as the fallback when the
    resolution read as [undefined], and as the inherited member when the
    key is a name of [Object.prototype] that the resolution does not
    define. *)
Theorem merge_keys_and_values
        (vars : EnvVars) (fb : list (string * string)) :
  (forall n,
      In n (obj_keys (applyFallbacks vars fb)) <->
      In n (obj_keys vars)
      \/ (In n (map fst fb) /\ obj_read vars n = JUndefined))
  /\ (forall n,
         In n (map fst fb) ->
         (exists v, obj_read (applyFallbacks vars fb) n = JString v
                    /\ (obj_read vars n = JString v
                        \/ (obj_read vars n = JUndefined
                            /\ fallback_get fb n = Some v)))
         \/ (exists name, obj_read (applyFallbacks vars fb) n = JInherited name
                          /\ obj_read vars n = JInherited name)).
Proof.
  split; [apply fallback_fold_keys|].
  intros n Hin. rewrite applyFallbacks_read.
  destruct (obj_read vars n) as [|v|name]; [|eauto|eauto].
  destruct (fallback_get_in fb n Hin) as (v & Hv). rewrite Hv. simpl.
  left. eauto.
Qed.

Lemma merge_keys_and_values_witness :
  let vars := [("PORT", Some "8080"); ("REACT_APP_PORT", Some "8080")] in
  let fb := [("PORT", "3000"); ("HOST", "localhost"); ("toString", "t")] in
  In "HOST" (obj_keys (applyFallbacks vars fb))
  /\ obj_read (applyFallbacks vars fb) "HOST" = JString "localhost"
  /\ obj_read (applyFallbacks vars fb) "PORT" = JString "8080"
  /\ ~ In "toString" (obj_keys (applyFallbacks vars fb)).
Proof.
  intros vars fb.
  assert (Hin : forall n, In n ["PORT"; "HOST"; "toString"] ->
                          In n (map fst fb)) by (intros n H; exact H).
  destruct (merge_keys_and_values vars fb) as (Hkeys & Hvals).
  split; [|split; [|split]].
  - apply Hkeys. right. split; [apply Hin; simpl; auto|reflexivity].
  - destruct (Hvals "HOST" (Hin _ (or_intror (or_introl eq_refl))))
      as [(v & Hv & [H|[_ H]])|(name & _ & H)].
    + discriminate.
    + rewrite Hv. vm_compute in H. congruence.
    + discriminate.
  - destruct (Hvals "PORT" (Hin _ (or_introl eq_refl)))
      as [(v & Hv & [H|[H _]])|(name & _ & H)].
    + rewrite Hv. vm_compute in H. congruence.
    + discriminate.
    + discriminate.
  - intros H. apply Hkeys in H. destruct H as [H|[_ H]].
    + destruct H as [H|[H|[]]]; discriminate.
    + discriminate.
Defined.

(** X8.  Merging the same fallback table a second time changes
    nothing: after one merge every fallback key holds a string. *)
Theorem merge_twice_is_merge_once
        (vars : EnvVars) (fb : list (string * string)) :
  applyFallbacks (applyFallbacks vars fb) fb = applyFallbacks vars fb.
Proof.
  apply applyFallbacks_id. intros k Hin.
  rewrite applyFallbacks_read.
  destruct (obj_read vars k); [|discriminate|discriminate].
  destruct (fallback_get_in fb k Hin) as (v & ->). discriminate.
Qed.

(** X9.  A pass that runs while the resolver returns replaces whatever
    diagnostic the component held: the error cell becomes [null] exactly
    when no required key reads as [undefined] or as the empty string in
    the merged mapping, and otherwise holds the message built from the
    non-empty list of the missing keys and the prefix hint. *)
Theorem pass_sets_the_diagnostic
        (w : World) (o : UseEnvOptions) (s : St) (c : Cells)
        (vars : EnvVars) :
  cells s = Some c ->
  envCache (globals s) = None -> isLoading (globals s) = false ->
  getAllEnvVars w (prefix o) = Ok vars ->
  let merged := applyFallbacks vars (fallbacks o) in
  exists c',
    cells (snd (useEnv_effect w o s)) = Some c'
    /\ envVars c' = merged
    /\ (error c' = None <->
        forall k, In k (required o) ->
                  obj_read merged k <> JUndefined
                  /\ obj_read merged k <> JString "")
    /\ (forall e,
           error c' = Some e ->
           missingVars merged (required o) <> []
           /\ e = missing_message (missingVars merged (required o))
                                  (prefix o)).
Proof.
  intros Hc Hm Hl Hv merged.
  rewrite (effect_pass_ok w o s vars Hm Hl Hv); simpl. rewrite Hc.
  eexists. split; [reflexivity|]. simpl. split; [reflexivity|].
  fold merged.
  destruct (0 <? List.length (missingVars merged (required o)))%nat eqn:E.
  - apply missingVars_nonempty in E. destruct E as (k & Hk & Hmiss).
    split; [split; [discriminate|]|].
    + intros Hall. destruct (Hall k Hk) as (H1 & H2).
      destruct Hmiss as [Hmiss|Hmiss]; congruence.
    + intros e [= <-]. split; [|reflexivity].
      intros Hnil.
      assert (Hin : In k (missingVars merged (required o)))
        by (apply missingVars_exact; auto).
      rewrite Hnil in Hin. exact Hin.
  - split; [split; [|reflexivity]|discriminate].
    intros _ k Hk.
    split; intros Hg;
      assert (Hex : (0 <? List.length (missingVars merged (required o)))%nat
                    = true)
        by (apply missingVars_nonempty; eauto);
      congruence.
Qed.

Lemma pass_sets_the_diagnostic_witness :
  let w := browser [("REACT_APP_PORT", Some "")] None in
  let o := {| prefix := None; required := ["PORT"];
              fallbacks := [("PORT", "3000")] |} in
  let c := {| envVars := [];
              error := Some (failure_message "ReferenceError") |} in
  let s := {| globals := {| envCache := None; isLoading := false |};
              cells := Some c; console := [] |} in
  exists c',
    cells (snd (useEnv_effect w o s)) = Some c'
    /\ obj_read (envVars c') "PORT" = JString ""
    /\ error c' = Some (missing_message ["PORT"] None).
Proof.
  intros w o c s.
  destruct (pass_sets_the_diagnostic
              w o s c [("PORT", Some ""); ("REACT_APP_PORT", Some "")]
              eq_refl eq_refl eq_refl eq_refl)
    as (c' & Hc' & Hm & _ & He).
  exists c'. split; [exact Hc'|]. split; [rewrite Hm; reflexivity|].
  destruct (error c') as [e|] eqn:Ee.
  - destruct (He e eq_refl) as [_ ->]. reflexivity.
  - exfalso. vm_compute in Hc'. injection Hc' as <-. discriminate.
Defined.

(* ===================================================================== *)
(** ** Further properties: rendering, logging and mounting *)
(* ===================================================================== *)

(** What a render appends to the console. *)
Lemma useEnv_console (w : World) (o : UseEnvOptions) (s : St) :
  console (snd (useEnv w o s))
  = (console s
     ++ match cells s with
        | Some c =>
            match error c with
            | Some e => if truthy e && is_development w
                        then [ConsoleError "useEnv Error:" e]
                        else []
            | None => []
            end
        | None => []
        end)%list.
Proof.
  destruct (cells s) as [c|] eqn:Hc.
  - destruct s as [g cs con]; simpl in *; subst cs.
    unfold useEnv, bind, useState_envVars, useState_error, lift,
      read_NODE_ENV, read_process_env, is_development, NODE_ENV; simpl.
    destruct (error c) as [e|]; simpl; [|now rewrite app_nil_r].
    destruct (truthy e); simpl; [|destruct (process_env w);
                                  now rewrite app_nil_r].
    destruct (process_env w) as [env|]; simpl; [|now rewrite app_nil_r].
    destruct (is_development_mode _); simpl;
      [reflexivity|now rewrite app_nil_r].
  - rewrite app_nil_r.
    destruct (envCache (globals s)) as [m|] eqn:Hm.
    + now rewrite (useEnv_mount_cached w o s m Hc Hm).
    + rewrite (useEnv_mount_uncached w o s Hc Hm).
      now destruct (getAllEnvVars w (prefix o)).
Qed.

(** X10.  [useEnv] writes to the console at render only, one entry per
    render, and only when the component holds a non-empty diagnostic and
    the build is a development build; the effect never writes to the
    console, and outside development nothing is ever written. *)
Theorem diagnostics_are_logged_at_render_in_development
        (w : World) (o : UseEnvOptions) (s : St) :
  console (snd (useEnv w o s))
  = (console s
     ++ match cells s with
        | Some c =>
            match error c with
            | Some e => if truthy e && is_development w
                        then [ConsoleError "useEnv Error:" e]
                        else []
            | None => []
            end
        | None => []
        end)%list
  /\ console (snd (useEnv_effect w o s)) = console s
  /\ (is_development w = false -> console (snd (useEnv w o s)) = console s).
Proof.
  pose proof (useEnv_console w o s) as Hrender.
  split; [exact Hrender|]. split.
  - destruct (envCache (globals s)) as [m|] eqn:Hm.
    + now rewrite (effect_skipped w o s m Hm).
    + destruct (isLoading (globals s)) eqn:Hl.
      * destruct s as [[cache loading] cs con]; simpl in *; subst.
        reflexivity.
      * destruct (getAllEnvVars w (prefix o)) as [vars|e] eqn:Hv.
        -- now rewrite (effect_pass_ok w o s vars Hm Hl Hv).
        -- now rewrite (effect_pass_throw w o s e Hm Hl Hv).
  - intros Hdev. rewrite Hrender, Hdev.
    destruct (cells s) as [c|]; [|now rewrite app_nil_r].
    destruct (error c) as [e|]; [|now rewrite app_nil_r].
    rewrite andb_false_r. now rewrite app_nil_r.
Qed.

Lemma diagnostics_are_logged_at_render_in_development_witness :
  let w := browser [] (Some "production") in
  let c := {| envVars := []; error := Some (missing_message ["API_URL"] None) |} in
  let s := {| globals := {| envCache := Some []; isLoading := false |};
              cells := Some c; console := [] |} in
  is_development w = false
  /\ console (snd (useEnv w no_options s)) = [].
Proof.
  intros w c s. split; [reflexivity|].
  destruct (diagnostics_are_logged_at_render_in_development w no_options s)
    as (_ & _ & H).
  exact (H eq_refl).
Defined.

(** X11.  The render throws exactly when [process.env] cannot be read
    and it is read: by a component that renders for the first time while
    the cache is empty, where the [useState] initialiser calls the
    resolver outside any [try], and by a mounted component that holds a
    non-empty diagnostic, where the development check evaluates
    [process.env.NODE_ENV].  The exception is the reference error, and
    the state is left as it was.  A component that mounts while the cache
    is populated, or a mounted one without a diagnostic, renders even
    when [process.env] cannot be read. *)
Theorem render_throws_exactly_without_process
        (w : World) (o : UseEnvOptions) (s : St) (e : string) :
  (fst (useEnv w o s) = Throw e <->
   process_env w = None /\ e = no_process
   /\ match cells s with
      | None => envCache (globals s) = None
      | Some c => exists d, error c = Some d /\ truthy d = true
      end)
  /\ (fst (useEnv w o s) = Throw e -> snd (useEnv w o s) = s).
Proof.
  destruct (cells s) as [c|] eqn:Hc.
  - destruct (useEnv_mounted w o s c Hc) as (H1 & _ & _ & H4).
    rewrite H1. unfold check_throws in *.
    destruct (error c) as [d|]; [destruct (process_env w) as [env|]|].
    + split; [|discriminate]. split; [discriminate|].
      intros (H & _). discriminate.
    + destruct (truthy d) eqn:Ht.
      * split; [|intros _; now apply H4]. split.
        -- intros [= <-]. eauto.
        -- intros (_ & -> & _). reflexivity.
      * split; [|discriminate]. split; [discriminate|].
        intros (_ & _ & d' & [= <-] & Hd). congruence.
    + split; [|discriminate]. split; [discriminate|].
      intros (_ & _ & d' & Hd & _). discriminate.
  - destruct (envCache (globals s)) as [m|] eqn:Hm.
    + rewrite (useEnv_mount_cached w o s m Hc Hm); simpl.
      split; [|discriminate].
      split; [discriminate|]. intros (_ & _ & H). discriminate.
    + rewrite (useEnv_mount_uncached w o s Hc Hm).
      destruct (getAllEnvVars w (prefix o)) as [v|e0] eqn:Hv; simpl.
      * split; [|discriminate]. split; [discriminate|].
        intros (H & _). now apply getAllEnvVars_ok_process in Hv.
      * apply getAllEnvVars_throws in Hv. destruct Hv as [Hw ->].
        split; [|reflexivity]. split.
        -- intros [= <-]. auto.
        -- intros (_ & -> & _). reflexivity.
Qed.

Lemma render_throws_exactly_without_process_witness :
  let w := browser_without_process in
  let s := {| globals := {| envCache := None; isLoading := false |};
              cells := None; console := [] |} in
  let cached := {| globals := {| envCache := Some [("PORT", Some "1")];
                                 isLoading := false |};
                   cells := None; console := [] |} in
  let failed := {| globals := {| envCache := None; isLoading := false |};
                   cells := Some {| envVars := [];
                                    error := Some (failure_message no_process) |};
                   console := [] |} in
  useEnv w no_options s = (Throw no_process, s)
  /\ useEnv w no_options failed = (Throw no_process, failed)
  /\ fst (useEnv w no_options cached) = Ok [("PORT", Some "1")].
Proof.
  intros w s cached failed.
  destruct (render_throws_exactly_without_process w no_options s no_process)
    as [[_ H1] H2].
  destruct (render_throws_exactly_without_process
              w no_options failed no_process)
    as [[_ H3] H4].
  assert (Ht : fst (useEnv w no_options s) = Throw no_process)
    by (apply H1; repeat split; reflexivity).
  assert (Hf : fst (useEnv w no_options failed) = Throw no_process)
    by (apply H3; split; [reflexivity|]; split; [reflexivity|];
        eexists; split; reflexivity).
  split; [|split; [|reflexivity]].
  - rewrite (surjective_pairing (useEnv w no_options s)).
    now rewrite Ht, (H2 Ht).
  - rewrite (surjective_pairing (useEnv w no_options failed)).
    now rewrite Hf, (H4 Hf).
Defined.

(** The setters touch only the focused component. *)
Lemma unfocus_other (sys : Sys) (c c' : nat) (s : St) :
  c' <> c -> sys_cells (unfocus sys c s) c' = sys_cells sys c'.
Proof.
  intros Hne. simpl. destruct (Nat.eqb c' c) eqn:E; [|reflexivity].
  apply Nat.eqb_eq in E. contradiction.
Qed.

(** What a render and an effect can leave in the error cell. *)
Lemma useEnv_error_cell (w : World) (o : UseEnvOptions) (s : St) (h : Cells) :
  cells (snd (useEnv w o s)) = Some h ->
  cells s = Some h \/ error h = None.
Proof.
  destruct (cells s) as [c|] eqn:Hc.
  - destruct (useEnv_mounted w o s c Hc) as (_ & _ & H & _). rewrite H. auto.
  - destruct (envCache (globals s)) as [m|] eqn:Hm.
    + rewrite (useEnv_mount_cached w o s m Hc Hm); simpl.
      intros [= <-]. now right.
    + rewrite (useEnv_mount_uncached w o s Hc Hm).
      destruct (getAllEnvVars w (prefix o)); simpl.
      * intros [= <-]. now right.
      * rewrite Hc. discriminate.
Qed.

Lemma effect_error_cell (w : World) (o : UseEnvOptions) (s : St) (h : Cells) :
  isLoading (globals s) = false ->
  cells (snd (useEnv_effect w o s)) = Some h ->
  cells s = Some h \/ error h = None
  \/ exists e, error h = Some e /\ truthy e = true.
Proof.
  intros Hl.
  destruct (envCache (globals s)) as [m|] eqn:Hm.
  - rewrite (effect_skipped w o s m Hm). auto.
  - destruct (getAllEnvVars w (prefix o)) as [vars|e] eqn:Hv.
    + rewrite (effect_pass_ok w o s vars Hm Hl Hv); simpl.
      destruct (cells s) as [c|]; [|discriminate].
      intros [= <-]; simpl.
      destruct (0 <? _)%nat; [|auto].
      right. right. eexists. split; [reflexivity|reflexivity].
    + rewrite (effect_pass_throw w o s e Hm Hl Hv); simpl.
      destruct (cells s) as [c|]; [|discriminate].
      intros [= <-]; simpl.
      right. right. eexists. split; reflexivity.
Qed.

(** X12.  In every state an application can reach, a diagnostic held by
    a component is a non-empty string; so the truthiness test of the
    render never hides one, and in a development build every render of
    that component logs it. *)
Theorem pending_diagnostic_is_always_logged (sys : Sys) :
  reachable sys ->
  forall (c : nat) (h : Cells) (e : string),
    sys_cells sys c = Some h -> error h = Some e ->
    truthy e = true
    /\ forall w o,
         is_development w = true ->
         sys_console (snd (render w c o sys))
         = (sys_console sys ++ [ConsoleError "useEnv Error:" e])%list.
Proof.
  intros Hreach.
  assert (Hinv : forall c h e,
             sys_cells sys c = Some h -> error h = Some e ->
             truthy e = true).
  { induction Hreach as [|w c0 o sys Hr IH|w c0 o sys Hr IH|sys Hr IH];
      intros c h e Hc He.
    - discriminate.
    - unfold render in Hc.
      destruct (useEnv w o (focus sys c0)) as [r s] eqn:Hu; simpl in Hc.
      destruct (Nat.eqb c c0) eqn:E.
      + apply Nat.eqb_eq in E; subst c0.
        pose proof (useEnv_error_cell w o (focus sys c) h) as H.
        rewrite Hu in H. destruct (H Hc) as [H'|H']; [|congruence].
        exact (IH c h e H' He).
      + exact (IH c h e Hc He).
    - unfold effect in Hc.
      destruct (sys_cells sys c0) as [h0|] eqn:Hc0; [|exact (IH c h e Hc He)].
      destruct (useEnv_effect w o (focus sys c0)) as [r s] eqn:Hu;
        simpl in Hc.
      destruct (Nat.eqb c c0) eqn:E.
      + apply Nat.eqb_eq in E; subst c0.
        pose proof (effect_error_cell w o (focus sys c) h
                      (reachable_not_loading sys Hr)) as H.
        rewrite Hu in H.
        destruct (H Hc) as [H'|[H'|(e' & H1 & H2)]];
          [exact (IH c h e H' He)|congruence|congruence].
      + exact (IH c h e Hc He).
    - rewrite clear_cells in Hc. exact (IH c h e Hc He). }
  intros c h e Hc He. split; [exact (Hinv c h e Hc He)|].
  intros w o Hdev. unfold render.
  pose proof (useEnv_console w o (focus sys c)) as H.
  destruct (useEnv w o (focus sys c)) as [r s]; simpl in *.
  rewrite H, Hc, He, (Hinv c h e Hc He), Hdev. reflexivity.
Qed.

Lemma pending_diagnostic_is_always_logged_witness :
  let w := browser [] (Some "development") in
  let o := {| prefix := None; required := ["API_URL"]; fallbacks := [] |} in
  let sys := snd (invoke w 0 o true boot) in
  reachable sys
  /\ sys_console (snd (render w 0 o sys))
     = [ConsoleError "useEnv Error:" (missing_message ["API_URL"] None)].
Proof.
  intros w o sys.
  assert (Hr : reachable sys) by (apply invoke_reachable; exact reach_boot).
  split; [exact Hr|].
  destruct (pending_diagnostic_is_always_logged
              sys Hr 0
              {| envVars := [];
                 error := Some (missing_message ["API_URL"] None) |}
              (missing_message ["API_URL"] None) eq_refl eq_refl)
    as [_ H].
  exact (H w o eq_refl).
Defined.

(* ===================================================================== *)
(** ** Further properties: the listing helper, clearing, and defaults *)
(* ===================================================================== *)

(** X13.  In a development build [listEnvVars] returns the keys of a
    fresh resolution made with the default prefixes, whatever the cache
    holds and whatever prefix the components use; it logs that list once
    and leaves the cache and the cells alone.  On the server the list is
    the key list of [process.env]; in the browser it holds, each once, the
    original and cleaned names of the keys that hold a string and start
    with a default prefix. *)
Theorem listEnvVars_lists_a_fresh_resolution
        (w : World) (env : EnvVars) (s : St) :
  is_development w = true -> process_env w = Some env ->
  exists keys,
    listEnvVars w s
    = (Ok keys,
       {| globals := globals s; cells := cells s;
          console := (console s
                      ++ [ConsoleLog "Available environment variables:"
                                     keys])%list |})
    /\ (has_window w = false -> keys = obj_keys env)
    /\ (has_window w = true ->
        NoDup keys
        /\ forall n,
             In n keys <->
             exists k v, contributes env default_prefixes k v
                         /\ names default_prefixes k n).
Proof.
  intros Hdev Henv.
  unfold is_development, NODE_ENV in Hdev. rewrite Henv in Hdev.
  unfold listEnvVars, bind, lift, getAllEnvVars, read_NODE_ENV,
    read_process_env.
  rewrite Henv, Hdev.
  destruct (has_window w); simpl.
  - exists (obj_keys (scan env default_prefixes)).
    split; [reflexivity|]. split; [discriminate|].
    intros _. split; [apply scan_NoDup|apply scan_keys_iff].
  - exists (obj_keys env).
    split; [reflexivity|]. split; [reflexivity|discriminate].
Qed.

Lemma listEnvVars_lists_a_fresh_resolution_witness :
  let env := [("MY_TOKEN", Some "t"); ("VITE_PORT", Some "5173")] in
  let w := browser env (Some "development") in
  let s := {| globals := {| envCache := Some [("TOKEN", Some "t")];
                            isLoading := false |};
              cells := None; console := [] |} in
  is_development w = true
  /\ process_env w = Some (with_mode env (Some "development"))
  /\ fst (listEnvVars w s) = Ok ["PORT"; "VITE_PORT"]
  /\ exists keys, fst (listEnvVars w s) = Ok keys /\ NoDup keys.
Proof.
  intros env w s. split; [reflexivity|]. split; [reflexivity|].
  split; [reflexivity|].
  destruct (listEnvVars_lists_a_fresh_resolution w _ s eq_refl eq_refl)
    as (keys & Hl & _ & Hb).
  exists keys. split; [now rewrite Hl|exact (proj1 (Hb eq_refl))].
Defined.

(** X14.  The first thing [listEnvVars] does is to evaluate
    [process.env.NODE_ENV]: where there is no [process] it throws the
    reference error, which nothing catches, and changes nothing.  Where
    [process.env] can be read and the build is not a development build,
    it returns the empty list and does nothing.  In no case does it
    change the cache or the cells. *)
Theorem listEnvVars_outside_development_and_on_failure
        (w : World) (s : St) :
  (process_env w = None -> listEnvVars w s = (Throw no_process, s))
  /\ (process_env w <> None -> is_development w = false ->
      listEnvVars w s = (Ok [], s))
  /\ globals (snd (listEnvVars w s)) = globals s
  /\ cells (snd (listEnvVars w s)) = cells s.
Proof.
  unfold listEnvVars, bind, lift, getAllEnvVars, read_NODE_ENV,
    read_process_env, is_development, NODE_ENV.
  destruct (process_env w) as [env|]; simpl.
  - split; [discriminate|].
    destruct (is_development_mode (obj_get env "NODE_ENV")).
    + split; [discriminate|]. destruct (has_window w); simpl; auto.
    + split; [reflexivity|]. auto.
  - split; [reflexivity|]. split; [congruence|]. auto.
Qed.

Lemma listEnvVars_outside_development_and_on_failure_witness :
  let s := {| globals := {| envCache := None; isLoading := false |};
              cells := None; console := [] |} in
  let w := browser [("VITE_PORT", Some "1")] (Some "production") in
  listEnvVars browser_without_process s = (Throw no_process, s)
  /\ is_development w = false
  /\ listEnvVars w s = (Ok [], s).
Proof.
  intros s w.
  destruct (listEnvVars_outside_development_and_on_failure
              browser_without_process s)
    as (H1 & _).
  destruct (listEnvVars_outside_development_and_on_failure w s)
    as (_ & H2 & _).
  split; [exact (H1 eq_refl)|]. split; [reflexivity|].
  apply H2; [discriminate|reflexivity].
Defined.

(** X15.  After a clear, the pass run for one mounted component
    repopulates the cache with the mapping merged under that component's
    configuration and hands it to that component only: every other
    component keeps the mapping and the diagnostic it held, and nothing is
    written to the console. *)
Theorem refresh_after_clear_reaches_one_component
        (w : World) (c c' : nat) (o : UseEnvOptions) (sys : Sys)
        (h : Cells) (vars : EnvVars) :
  reachable sys ->
  sys_cells sys c = Some h -> c' <> c ->
  getAllEnvVars w (prefix o) = Ok vars ->
  let sys' := snd (effect w c o (clear sys)) in
  envCache (sys_globals sys') = Some (applyFallbacks vars (fallbacks o))
  /\ (exists err,
         sys_cells sys' c
         = Some {| envVars := applyFallbacks vars (fallbacks o);
                   error := err |})
  /\ sys_cells sys' c' = sys_cells sys c'
  /\ sys_console sys' = sys_console sys.
Proof.
  intros Hreach Hc Hne Hv sys'. subst sys'.
  pose proof (clear_globals sys Hreach) as Hg.
  assert (Hm : envCache (sys_globals (clear sys)) = None) by now rewrite Hg.
  assert (Hl : isLoading (sys_globals (clear sys)) = false) by now rewrite Hg.
  assert (Hc1 : sys_cells (clear sys) c = Some h) by now rewrite clear_cells.
  destruct (effect_pass_cells w c o (clear sys) h vars Hc1 Hm Hl Hv)
    as (H1 & H2).
  split; [now rewrite H1|]. split; [exact H2|].
  unfold effect. rewrite Hc1.
  rewrite (effect_pass_ok w o (focus (clear sys) c) vars Hm Hl Hv).
  cbv beta iota zeta. unfold snd. split.
  - rewrite unfocus_other by exact Hne. apply clear_cells.
  - reflexivity.
Qed.

Lemma refresh_after_clear_reaches_one_component_witness :
  let w1 := browser [("REACT_APP_API_URL", Some "https://old")] None in
  let w2 := browser [("REACT_APP_API_URL", Some "https://new")] None in
  let sys := snd (invoke w1 1 no_options true
                         (snd (invoke w1 0 no_options true boot))) in
  let sys' := snd (effect w2 0 no_options (clear sys)) in
  reachable sys
  /\ envCache (sys_globals sys')
     = Some [("API_URL", Some "https://new");
             ("REACT_APP_API_URL", Some "https://new")]
  /\ sys_cells sys' 1
     = Some {| envVars := [("API_URL", Some "https://old");
                           ("REACT_APP_API_URL", Some "https://old")];
               error := None |}.
Proof.
  intros w1 w2 sys sys'.
  assert (Hr : reachable sys)
    by (repeat apply invoke_reachable; exact reach_boot).
  split; [exact Hr|].
  destruct (refresh_after_clear_reaches_one_component
              w2 0 1 no_options sys
              {| envVars := [("API_URL", Some "https://old");
                             ("REACT_APP_API_URL", Some "https://old")];
                 error := None |}
              [("API_URL", Some "https://new");
               ("REACT_APP_API_URL", Some "https://new")]
              Hr eq_refl (fun H => Nat.neq_succ_0 0 H) eq_refl)
    as (H1 & _ & H3 & _).
  split; [exact H1|]. fold sys' in H3. rewrite H3. reflexivity.
Defined.

(** X16.  An empty string given as prefix counts as no prefix at all:
    the resolver falls back to the four default prefixes, the hint of the
    diagnostic is the default hint, and so the render and the pass of
    [useEnv] are the ones of a call without prefix. *)
Theorem empty_prefix_means_default_prefixes
        (w : World) (req : list string) (fb : list (string * string))
        (s : St) :
  let o1 := {| prefix := Some ""; required := req; fallbacks := fb |} in
  let o2 := {| prefix := None; required := req; fallbacks := fb |} in
  active_prefixes (Some "") = default_prefixes
  /\ getAllEnvVars w (Some "") = getAllEnvVars w None
  /\ useEnv w o1 s = useEnv w o2 s
  /\ useEnv_effect w o1 s = useEnv_effect w o2 s.
Proof.
  intros o1 o2.
  assert (Hres : getAllEnvVars w (Some "") = getAllEnvVars w None)
    by reflexivity.
  split; [reflexivity|]. split; [exact Hres|]. split.
  - unfold useEnv, o1, o2; simpl. now rewrite Hres.
  - unfold useEnv_effect, o1, o2; simpl. now rewrite Hres.
Qed.

(** X17.  The pass that [useEnvVar] registers carries no fallback and
    no required key: when it runs and the resolver returns, it caches the
    bare default-prefix resolution, hands it to the component and clears
    the diagnostic of the component; it never reports a missing
    variable, and the fallback given to [useEnvVar] is not stored. *)
Theorem useEnvVar_pass_caches_the_bare_resolution
        (w : World) (s : St) (c : Cells) (vars : EnvVars) :
  cells s = Some c ->
  envCache (globals s) = None -> isLoading (globals s) = false ->
  getAllEnvVars w None = Ok vars ->
  useEnvVar_effect w s
  = (Ok tt,
     {| globals := {| envCache := Some vars; isLoading := false |};
        cells := Some {| envVars := vars; error := None |};
        console := console s |}).
Proof.
  intros Hc Hm Hl Hv. unfold useEnvVar_effect.
  rewrite (effect_pass_ok w no_options s vars Hm Hl Hv); simpl.
  now rewrite Hc.
Qed.

Lemma useEnvVar_pass_caches_the_bare_resolution_witness :
  let w := browser [("REACT_APP_PORT", Some "")] None in
  let c := {| envVars := []; error := Some (failure_message "boom") |} in
  let s := {| globals := {| envCache := None; isLoading := false |};
              cells := Some c; console := [] |} in
  cells (snd (useEnvVar_effect w s))
  = Some {| envVars := [("PORT", Some ""); ("REACT_APP_PORT", Some "")];
            error := None |}.
Proof.
  intros w c s.
  now rewrite (useEnvVar_pass_caches_the_bare_resolution
                 w s c [("PORT", Some ""); ("REACT_APP_PORT", Some "")]
                 eq_refl eq_refl eq_refl eq_refl).
Defined.

(** X18.  On the server nothing is cleaned: the pass caches
    [process.env] as it is, with the fallbacks merged in, so a name is
    looked up in [process.env] itself.  A required name at which
    [process.env] reads as [undefined], and that has no fallback, is
    reported missing even when a prefixed variable of that name
    exists. *)
Theorem server_pass_looks_names_up_as_they_are
        (w : World) (o : UseEnvOptions) (s : St) (c : Cells)
        (env : EnvVars) :
  has_window w = false -> process_env w = Some env ->
  cells s = Some c ->
  envCache (globals s) = None -> isLoading (globals s) = false ->
  exists c',
    cells (snd (useEnv_effect w o s)) = Some c'
    /\ envCache (globals (snd (useEnv_effect w o s))) = Some (envVars c')
    /\ (forall n,
           obj_read (envVars c') n
           = match obj_read env n with
             | JUndefined => of_value (fallback_get (fallbacks o) n)
             | r => r
             end)
    /\ (forall k,
           In k (required o) -> obj_read env k = JUndefined ->
           fallback_get (fallbacks o) k = None ->
           exists e, error c' = Some e).
Proof.
  intros Hw Henv Hc Hm Hl.
  assert (Hv : getAllEnvVars w (prefix o) = Ok env)
    by (unfold getAllEnvVars, read_process_env; now rewrite Hw, Henv).
  rewrite (effect_pass_ok w o s env Hm Hl Hv); simpl. rewrite Hc.
  eexists. split; [reflexivity|]. simpl. split; [reflexivity|].
  split; [intros n; apply applyFallbacks_read|].
  intros k Hk Hnone Hfb.
  assert (Hex : (0 <? List.length
                        (missingVars (applyFallbacks env (fallbacks o))
                                     (required o)))%nat = true).
  { apply missingVars_nonempty. exists k. split; [exact Hk|]. left.
    now rewrite applyFallbacks_read, Hnone, Hfb. }
  rewrite Hex. eauto.
Qed.

Lemma server_pass_looks_names_up_as_they_are_witness :
  let env := [("REACT_APP_API_URL", Some "https://x")] in
  let w := server env None in
  let o := {| prefix := None; required := ["API_URL"]; fallbacks := [] |} in
  let c := {| envVars := env; error := None |} in
  let s := {| globals := {| envCache := None; isLoading := false |};
              cells := Some c; console := [] |} in
  exists c',
    cells (snd (useEnv_effect w o s)) = Some c'
    /\ obj_read (envVars c') "API_URL" = JUndefined
    /\ exists e, error c' = Some e.
Proof.
  intros env w o c s.
  destruct (server_pass_looks_names_up_as_they_are
              w o s c env eq_refl eq_refl eq_refl eq_refl eq_refl)
    as (c' & Hc' & _ & Hget & Herr).
  exists c'. split; [exact Hc'|]. split.
  - rewrite Hget. reflexivity.
  - apply (Herr "API_URL"); [simpl; auto|reflexivity|reflexivity].
Defined.
